(** * visual-html: the style cascade of [src/stylesheets.ts]

    A shallow embedding of the module that collects the style rules of a
    document, orders them by selector specificity, matches them against an
    element (directly, or after splitting pseudo-elements off the selector)
    and merges the matching declaration blocks into one property map.

    Strings are sequences of code units; a unit is an [ascii] character here,
    and indices count units as [String.prototype.slice] and [match.index] do.
    Objects used as dictionaries are finite maps; a value that may be [null]
    is an [option]. *)

From Stdlib Require Import Ascii String.
From Equations Require Import Equations.
From stdpp Require Import gmap strings list fin_maps sorting.

Open Scope string_scope.
Open Scope list_scope.
Open Scope nat_scope.
Open Scope stdpp_scope.

(** ** Declaration blocks ([CSSStyleDeclaration])

    The code reads a block through three accessors only: [style.length] and
    [style[i]] (the name of the i-th declaration), [style[name]] (the
    attribute of the host object that goes by the name of the property) and
    [style.getPropertyPriority(name)] ("important" or the empty string).  A
    block is modelled as the list of its declarations; the by-name accessors
    look the name up in that list.

    A block holds declarations of two kinds: of the properties the host
    supports, each of which it exposes as an attribute under the name of the
    property, and of custom properties, named with two leading dashes, which it
    exposes under no attribute.  Reading [style[name]] for a custom property
    therefore finds nothing and gives [undefined], whatever the declaration
    says; [getPropertyPriority] knows both kinds. *)

Record Declaration := mkDecl {
  d_name : string;
  d_value : string;
  d_priority : string
}.

Definition CSSStyleDeclaration := list Declaration.

Definition namedDecl (style : CSSStyleDeclaration) (name : string) : option Declaration :=
  List.find (λ d, bool_decide (d_name d = name)) style.

(** [style.getPropertyValue(name)]: the value text of the declaration of that
    name, the empty string when the block has none.  The code does not call
    it; the attribute of a supported property is defined by it. *)
Definition getPropertyValue (style : CSSStyleDeclaration) (name : string) : string :=
  from_option d_value "" (namedDecl style name).

(** A custom property is one whose name starts with two dashes. *)
Definition isCustomProperty (name : string) : bool := String.prefix "--" name.

(** [style[name]] for a property name, [None] standing for [undefined]. *)
Definition styleAttribute (style : CSSStyleDeclaration) (name : string) : option string :=
  if isCustomProperty name then None else Some (getPropertyValue style name).

(** [style[name]] as the left operand of [+] on line 130, where [undefined]
    is turned into the text "undefined". *)
Definition styleValue (style : CSSStyleDeclaration) (name : string) : string :=
  default "undefined" (styleAttribute style name).

(** [style.getPropertyPriority(name)] *)
Definition getPropertyPriority (style : CSSStyleDeclaration) (name : string) : string :=
  from_option d_priority "" (namedDecl style name).

(** ** The cascade resolver, [getAppliedPropertiesForStyles] *)

Module Resolver.

(** The two locals of the function: [properties] (null until the first
    declaration is seen) and the set [important]. *)
Record state := mkState {
  properties : option (gmap string string);
  important : gset string
}.

Definition init : state := {| properties := None; important := ∅ |}.

(** What one iteration of the inner loop has in hand once [name],
    [isImportant] and [style[name]], as a string, are read. *)
Record entry := mkEntry {
  e_name : string;
  e_text : string;
  e_important : bool
}.

Definition readEntry (style : CSSStyleDeclaration) (name : string) : entry :=
  {| e_name := name;
     e_text := styleValue style name;
     e_important := bool_decide (getPropertyPriority style name = "important") |}.

(** [style[name] + (isImportant ? " !important" : "")] *)
Definition value (e : entry) : string :=
  e_text e +:+ (if e_important e then " !important" else "").

(** The condition of the inner [if]:
    [properties[name] === undefined || (isImportant && !important.has(name))]. *)
Definition mayAssign (props : gmap string string) (seen : gset string) (e : entry) : bool :=
  bool_decide (props !! e_name e = None)
  || (e_important e && negb (bool_decide (e_name e ∈ seen))).

(** One iteration of the inner loop. *)
Definition applyEntry (st : state) (e : entry) : state :=
  {| properties :=
       match properties st with
       | Some props =>
           if mayAssign props (important st) e
           then Some (<[e_name e := value e]> props)
           else Some props
       | None => Some {[ e_name e := value e ]}
       end;
     important :=
       if e_important e then {[ e_name e ]} ∪ important st else important st |}.

(** Does the iteration write the value of the entry?  It does when
    [properties] is still null, and otherwise when the condition holds. *)
Definition overwrites (st : state) (e : entry) : bool :=
  match properties st with
  | Some props => mayAssign props (important st) e
  | None => true
  end.

(** The inner loop: [for (i = 0; i < style.length; i++)] over [style[i]]. *)
Definition applyStyle (st : state) (style : CSSStyleDeclaration) : state :=
  foldl (λ st name, applyEntry st (readEntry style name)) st (d_name <$> style).

Definition run (styles : list CSSStyleDeclaration) : state :=
  foldl applyStyle init styles.

End Resolver.

Definition getAppliedPropertiesForStyles (styles : list CSSStyleDeclaration)
  : option (gmap string string) :=
  Resolver.properties (Resolver.run styles).

Definition decl (name text : string) : Declaration := mkDecl name text "".
Definition decl_important (name text : string) : Declaration := mkDecl name text "important".

(** Reading a property off a result that may be null. *)
Definition property (result : option (gmap string string)) (name : string) : option string :=
  result ≫= (.!! name).

(** ** Rules, sheets, the window and the document

    A rule is the host object the code probes: its numeric [type] tag and the
    fields read off it ([selectorText] and [style] of a style rule,
    [media.mediaText] of a media rule, [conditionText] of a supports rule,
    [cssRules] of a grouping rule). *)

#[warnings="-register-all"]
Inductive CSSRule := mkRule {
  type : N;
  selectorText : string;
  style : CSSStyleDeclaration;
  mediaText : string;
  conditionText : string;
  cssRules : list CSSRule
}.

(** [window.matchMedia] may be missing (the code tests it before the call);
    [window.CSS.supports] is called untested. *)
Record Window := mkWindow {
  matchMedia : option (string → bool);
  CSS_supports : string → bool
}.

Record Document := mkDocument {
  styleSheets : list (list CSSRule);
  defaultView : Window
}.

Definition isStyleRule (rule : CSSRule) : bool := (type rule =? 1)%N.
Definition isMediaRule (rule : CSSRule) : bool := (type rule =? 4)%N.
Definition isSupportsRule (rule : CSSRule) : bool := (type rule =? 12)%N.

Definition flatten {T} (a b : list T) : list T := a ++ b.

(** The body of the loop of [getStyleRulesFromSheet] for one rule: what the
    rule pushes onto [styleRules].  The nested [loop] is the function itself on
    the [cssRules] of a grouping rule, walking them from the last to the
    first. *)
Fixpoint getStyleRulesFromRule (window : Window) (rule : CSSRule) {struct rule}
  : list CSSRule :=
  match rule with
  | mkRule _ _ _ _ _ nested =>
      let recurse :=
        (fix loop (curRules : list CSSRule) : list CSSRule :=
           match curRules with
           | [] => []
           | r :: rest => loop rest ++ getStyleRulesFromRule window r
           end) nested in
      if isStyleRule rule then [rule]
      else if isMediaRule rule && bool_decide (is_Some (matchMedia window)) then
        if from_option (λ query, query (mediaText rule)) false (matchMedia window)
        then recurse else []
      else if isSupportsRule rule then
        if CSS_supports window (conditionText rule) then recurse else []
      else []
  end.

(** [getStyleRulesFromSheet(sheet, window)], given [sheet.cssRules]:
    [for (let i = curRules.length; i--; )]. *)
Fixpoint getStyleRulesFromSheet (curRules : list CSSRule) (window : Window)
  : list CSSRule :=
  match curRules with
  | [] => []
  | rule :: rest =>
      getStyleRulesFromSheet rest window ++ getStyleRulesFromRule window rule
  end.

(** ** Sorting by specificity

    [Array.prototype.sort] with a comparison function: [a] comes before [b]
    when [comparefn a b < 0], after it when [comparefn a b > 0], and elements
    that compare equal keep their order (the sort is stable, as ECMAScript
    requires since the 2019 edition). *)

Section Sort.
Context {T : Type} (comparefn : T → T → Z).

Fixpoint sortInsert (x : T) (sorted : list T) : list T :=
  match sorted with
  | [] => [x]
  | y :: rest =>
      if (comparefn x y <=? 0)%Z then x :: sorted else y :: sortInsert x rest
  end.

Definition sort (l : list T) : list T := foldr sortInsert [] l.

End Sort.

Section Document.
(** [compare] of the [specificity] package: negative, zero or positive as the
    first selector is less, equally or more specific than the second. *)
Context (compare : string → string → Z).

Definition bySpecificity (a b : CSSRule) : Z :=
  compare (selectorText b) (selectorText a).

(** [a] may stand before [b]: [b] is at most as specific as [a]. *)
Definition mayPrecede (a b : CSSRule) : Prop := (bySpecificity a b ≤ 0)%Z.

Definition collectedRules (document : Document) : list CSSRule :=
  foldl flatten []
    ((λ sheet, getStyleRulesFromSheet sheet (defaultView document))
       <$> styleSheets document).

Definition getDocumentStyleRules (document : Document) : list CSSRule :=
  sort bySpecificity (collectedRules document).

End Document.

(** Does a grouping rule let its nested rules through?  A media rule when
    [window.matchMedia] exists and its query matches, a supports rule when
    [CSS.supports] accepts its condition. *)
Definition conditionHolds (window : Window) (rule : CSSRule) : bool :=
  (isMediaRule rule && from_option (λ query, query (mediaText rule)) false (matchMedia window))
  || (isSupportsRule rule && CSS_supports window (conditionText rule)).

(** The style rules in force listed in declaration order: each rule list
    from its first rule to its last, a grouping rule whose condition holds
    standing for its nested rules. *)
Fixpoint declaredByRule (window : Window) (rule : CSSRule) {struct rule} : list CSSRule :=
  match rule with
  | mkRule _ _ _ _ _ nested =>
      let inner :=
        (fix loop (curRules : list CSSRule) : list CSSRule :=
           match curRules with
           | [] => []
           | r :: rest => declaredByRule window r ++ loop rest
           end) nested in
      if isStyleRule rule then [rule]
      else if conditionHolds window rule then inner else []
  end.

Fixpoint declarationOrder (curRules : list CSSRule) (window : Window) : list CSSRule :=
  match curRules with
  | [] => []
  | rule :: rest => declaredByRule window rule ++ declarationOrder rest window
  end.

(** ** Elements and the selector matching primitive

    [el.matches(selector)] answers true or false, or throws (a selector the
    host cannot parse); the code catches nothing, so a throw ends the call. *)

Inductive completion (A : Type) :=
| Normal (a : A)
| Throw.
Arguments Normal {A} a.
Arguments Throw {A}.

#[export] Instance completion_eq_dec {A} `{EqDecision A} : EqDecision (completion A).
Proof. solve_decision. Defined.

#[export] Instance completion_ret : MRet completion := λ A a, Normal a.
#[export] Instance completion_bind : MBind completion := λ A B f c,
  match c with
  | Normal a => f a
  | Throw => Throw
  end.

Record Element := mkElement {
  el_style : CSSStyleDeclaration;
  el_matches : string → completion bool
}.

(** [rules.filter(rule => el.matches(rule.selectorText))] *)
Fixpoint matchingRules (el : Element) (rules : list CSSRule) : completion (list CSSRule) :=
  match rules with
  | [] => Normal []
  | rule :: rest =>
      keep ← el_matches el (selectorText rule);
      kept ← matchingRules el rest;
      Normal (if keep : bool then rule :: kept else kept)
  end.

Definition getElementStyles (el : Element) (rules : list CSSRule)
  : completion (option (gmap string string)) :=
  matching ← matchingRules el rules;
  Normal (getAppliedPropertiesForStyles ([el_style el] ++ (style <$> matching))).

(** ** The pseudo-element pattern

    [/::?(before|after|...|grammar-error)/gi], run by [exec] from the
    pattern object's [lastIndex]. *)

Module RegExp.

Definition alternatives : list string :=
  ["before"; "after"; "first-letter"; "first-line"; "selection"; "backdrop";
   "placeholder"; "marker"; "spelling-error"; "grammar-error"].

(** The [i] flag compares code units after upper-casing them. *)
Definition canonicalize (c : ascii) : ascii :=
  let n := nat_of_ascii c in
  if (97 <=? n) && (n <=? 122) then ascii_of_nat (n - 32) else c.

(** Does [subject] start with [literal], case-insensitively? *)
Fixpoint startsWith (literal subject : string) : bool :=
  match literal, subject with
  | EmptyString, _ => true
  | String a literal', String b subject' =>
      bool_decide (canonicalize a = canonicalize b) && startsWith literal' subject'
  | String _ _, EmptyString => false
  end.

(** The alternation: the first alternative that matches; its length. *)
Definition matchGroup (subject : string) : option nat :=
  String.length <$> List.find (λ alt, startsWith alt subject) alternatives.

(** The whole pattern anchored at the start of [subject]: the number of
    colons consumed and the length of the group.  [:?] is greedy: the second
    colon is taken first and given back when the group does not follow. *)
Definition matchHere (subject : string) : option (nat * nat) :=
  match subject with
  | String c rest =>
      if Ascii.eqb c ":" then
        match rest with
        | String c' rest' =>
            if Ascii.eqb c' ":" then
              match matchGroup rest' with
              | Some n => Some (2, n)
              | None => (λ n, (1, n)) <$> matchGroup rest
              end
            else (λ n, (1, n)) <$> matchGroup rest
        | EmptyString => (λ n, (1, n)) <$> matchGroup rest
        end
      else None
  | EmptyString => None
  end.

(** The leftmost match in [subject], whose first character sits at [index]
    of the whole string. *)
Fixpoint search (subject : string) (index : nat) : option (nat * nat * nat) :=
  match matchHere subject with
  | Some (colons, n) => Some (index, colons, n)
  | None =>
      match subject with
      | EmptyString => None
      | String _ subject' => search subject' (S index)
      end
  end.

Fixpoint skip (n : nat) (s : string) : string :=
  match n, s with
  | S n', String _ s' => skip n' s'
  | _, _ => s
  end.

(** [s.slice(from, to)] and [s.slice(from)], for indices within the string. *)
Definition slice (s : string) (from to : nat) : string := substring from (to - from) s.
Definition sliceFrom (s : string) (from : nat) : string := skip from s.

(** The result of a successful [exec]: [match.index], [match[0]], [match[1]]. *)
Record result := mkResult {
  index : nat;
  whole : string;
  group1 : string
}.

(** [regex.exec(str)] for a global pattern whose [lastIndex] is given: the
    result (or null) and the new [lastIndex]. *)
Definition exec (lastIndex : nat) (str : string) : option result * nat :=
  if bool_decide (String.length str < lastIndex) then (None, 0)
  else
    match search (skip lastIndex str) lastIndex with
    | Some (i, colons, n) =>
        (Some {| index := i;
                 whole := slice str i (i + colons + n);
                 group1 := slice str (i + colons) (i + colons + n) |},
         i + colons + n)
    | None => (None, 0)
    end.

End RegExp.

(** ** Pseudo-element styles, [getPseudoElementStyles] *)

(** Every successful [exec] moves [lastIndex] forward and keeps it inside
    the string: the [while] loop below ends. *)
Lemma startsWith_length literal subject :
  RegExp.startsWith literal subject = true →
  String.length literal ≤ String.length subject.
Proof.
  revert subject. induction literal as [|a literal IH]; intros [|b subject]; simpl;
    try lia; try discriminate.
  intros [_ H]%andb_prop. apply IH in H. lia.
Qed.

Lemma matchGroup_length subject n :
  RegExp.matchGroup subject = Some n → n ≤ String.length subject.
Proof.
  unfold RegExp.matchGroup. destruct (List.find _ _) as [alt|] eqn:Hfind; [|done].
  intros [= <-]. apply find_some in Hfind as [_ H]. by apply startsWith_length.
Qed.

Lemma matchHere_length subject colons n :
  RegExp.matchHere subject = Some (colons, n) →
  1 ≤ colons ∧ colons + n ≤ String.length subject.
Proof.
  unfold RegExp.matchHere. intros H.
  repeat (case_match; simplify_eq/=; try done);
    repeat match goal with
           | H : _ <$> RegExp.matchGroup _ = Some _ |- _ =>
               apply fmap_Some in H as (? & H & [= -> ->])
           | H : RegExp.matchGroup _ = Some _ |- _ => apply matchGroup_length in H
           end; simpl in *; lia.
Qed.

Lemma search_cons c subject index :
  RegExp.search (String c subject) index =
  match RegExp.matchHere (String c subject) with
  | Some (colons, n) => Some (index, colons, n)
  | None => RegExp.search subject (S index)
  end.
Proof. reflexivity. Qed.

Lemma search_bounds subject index i colons n :
  RegExp.search subject index = Some (i, colons, n) →
  index ≤ i ∧ 1 ≤ colons ∧ i + colons + n ≤ index + String.length subject.
Proof.
  revert index. induction subject as [|c subject IH]; intros index.
  - done.
  - rewrite search_cons.
    destruct (RegExp.matchHere (String c subject)) as [[??]|] eqn:Hm.
    + intros ?; simplify_eq. apply matchHere_length in Hm. simpl in *. lia.
    + intros H%IH. simpl. lia.
Qed.

Lemma skip_length n s : String.length (RegExp.skip n s) = String.length s - n.
Proof. revert s. induction n as [|n IH]; intros [|c s]; simpl; auto. Qed.

Lemma exec_progress lastIndex str m lastIndex' :
  RegExp.exec lastIndex str = (Some m, lastIndex') →
  lastIndex < lastIndex' ≤ String.length str.
Proof.
  unfold RegExp.exec. case_bool_decide; [done|].
  destruct (RegExp.search _ _) as [[[i colons] n]|] eqn:Hs; [|done].
  intros ?; simplify_eq. apply search_bounds in Hs. rewrite skip_length in Hs. lia.
Qed.

Definition inspect {A} (a : A) : { b : A | a = b } := exist _ a eq_refl.

(** [seenPseudos] after one more [name]. *)
Definition seeName (seenPseudos : option (list string)) (name : string)
  : option (list string) :=
  match seenPseudos with
  | Some seen => if bool_decide (name ∈ seen) then Some seen else Some (seen ++ [name])
  | None => Some [name]
  end.

(** [selectorText] without the span of [match]. *)
Definition withoutMatch (selectorText : string) (m : RegExp.result) : string :=
  RegExp.slice selectorText 0 (RegExp.index m)
  +:+ RegExp.sliceFrom selectorText (RegExp.index m + String.length (RegExp.whole m)).

(** The loop [while ((match = pseudoElementRegex.exec(selectorText)))]: the
    final [baseSelector] and [seenPseudos], and the [lastIndex] the pattern
    object is left with. *)
Equations? scanSelector (selectorText : string) (lastIndex : nat)
    (baseSelector : string) (seenPseudos : option (list string))
  : string * option (list string) * nat
  by wf (S (String.length selectorText) - lastIndex) lt :=
  scanSelector selectorText lastIndex baseSelector seenPseudos
    with inspect (RegExp.exec lastIndex selectorText) := {
    | exist _ (Some m, lastIndex') _ =>
        scanSelector selectorText lastIndex'
          (withoutMatch selectorText m)
          (seeName seenPseudos ("::" +:+ RegExp.group1 m))
    | exist _ (None, lastIndex') _ => (baseSelector, seenPseudos, lastIndex')
  }.
Proof. apply exec_progress in e. lia. Qed.

(** All the occurrences of the pattern in [selectorText] from [lastIndex]
    on, left to right, each search starting where the previous occurrence
    ended. *)
Equations? execAll (selectorText : string) (lastIndex : nat) : list RegExp.result
  by wf (S (String.length selectorText) - lastIndex) lt :=
  execAll selectorText lastIndex
    with inspect (RegExp.exec lastIndex selectorText) := {
    | exist _ (Some m, lastIndex') _ => m :: execAll selectorText lastIndex'
    | exist _ (None, _) _ => []
  }.
Proof. apply exec_progress in e. lia. Qed.

(** The grouping key of an occurrence. *)
Definition pseudoName (m : RegExp.result) : string := "::" +:+ RegExp.group1 m.

(** The pseudo-element names a selector mentions, one per occurrence. *)
Definition pseudoNames (selectorText : string) : list string :=
  pseudoName <$> execAll selectorText 0.

(** The selector without the span of its last occurrence, "*" when nothing
    is left. *)
Definition strippedSelector (selectorText : string) : string :=
  let baseSelector :=
    from_option (withoutMatch selectorText) selectorText (last (execAll selectorText 0)) in
  if bool_decide (baseSelector = "") then "*" else baseSelector.

(** The rule adds its block to the group of [name] for this element. *)
Definition contributes (el : Element) (name : string) (rule : CSSRule) : Prop :=
  name ∈ pseudoNames (selectorText rule)
  ∧ el_matches el (strippedSelector (selectorText rule)) = Normal true.

#[export] Instance contributes_dec el name rule : Decision (contributes el name rule).
Proof. unfold contributes. apply _. Defined.

(** [el.matches] is called for the rule and throws. *)
Definition throwsOn (el : Element) (rule : CSSRule) : Prop :=
  pseudoNames (selectorText rule) ≠ []
  ∧ el_matches el (strippedSelector (selectorText rule)) = Throw.

(** [(rulesByPseudoElement[name] || (rulesByPseudoElement[name] = [])).push(style)] *)
Definition pushStyle (style : CSSStyleDeclaration)
    (rulesByPseudoElement : gmap string (list CSSStyleDeclaration)) (name : string)
  : gmap string (list CSSStyleDeclaration) :=
  <[name := default [] (rulesByPseudoElement !! name) ++ [style]]> rulesByPseudoElement.

(** [baseSelector || "*"] *)
Definition orStar (baseSelector : string) : string :=
  if bool_decide (baseSelector = "") then "*" else baseSelector.

(** The callback of [rules.reduce]: one rule, from the [lastIndex] the
    pattern object holds; the accumulator (or a throw of [el.matches]) and
    the [lastIndex] left behind. *)
Definition groupRule (el : Element)
    (rulesByPseudoElement : gmap string (list CSSStyleDeclaration))
    (rule : CSSRule) (lastIndex : nat)
  : completion (gmap string (list CSSStyleDeclaration)) * nat :=
  let '(baseSelector, seenPseudos, lastIndex') :=
    scanSelector (selectorText rule) lastIndex (selectorText rule) None in
  match seenPseudos with
  | Some seen =>
      match el_matches el (orStar baseSelector) with
      | Normal true =>
          (Normal (foldl (pushStyle (style rule)) rulesByPseudoElement seen), lastIndex')
      | Normal false => (Normal rulesByPseudoElement, lastIndex')
      | Throw => (Throw, lastIndex')
      end
  | None => (Normal rulesByPseudoElement, lastIndex')
  end.

Fixpoint groupRules (el : Element)
    (rulesByPseudoElement : gmap string (list CSSStyleDeclaration))
    (rules : list CSSRule) (lastIndex : nat)
  : completion (gmap string (list CSSStyleDeclaration)) * nat :=
  match rules with
  | [] => (Normal rulesByPseudoElement, lastIndex)
  | rule :: rest =>
      match groupRule el rulesByPseudoElement rule lastIndex with
      | (Normal rulesByPseudoElement', lastIndex') =>
          groupRules el rulesByPseudoElement' rest lastIndex'
      | (Throw, lastIndex') => (Throw, lastIndex')
      end
  end.

(** The result maps a pseudo-element name to what the resolver returns for
    its blocks; the keys are walked in the order the map enumerates them,
    which does not change the object that is built. *)
Definition getPseudoElementStyles (el : Element) (rules : list CSSRule) (lastIndex : nat)
  : completion (option (gmap string (option (gmap string string)))) * nat :=
  match groupRules el ∅ rules lastIndex with
  | (Normal stylesByPseudoElement, lastIndex') =>
      let foundPseudoElements := (map_to_list stylesByPseudoElement).*1 in
      if bool_decide (length foundPseudoElements = 0) then (Normal None, lastIndex')
      else
        (Normal (Some (foldl
           (λ styleByPseudoElement name,
              <[name := getAppliedPropertiesForStyles (stylesByPseudoElement !!! name)]>
                styleByPseudoElement)
           ∅ foundPseudoElements)),
         lastIndex')
  | (Throw, lastIndex') => (Throw, lastIndex')
  end.

(** ** The module as a whole

    Its only state is the [lastIndex] of [pseudoElementRegex], 0 when the
    module is loaded; its entry points taking an element are the two
    below. *)

Module Api.

Inductive call :=
| GetElementStyles (el : Element) (rules : list CSSRule)
| GetPseudoElementStyles (el : Element) (rules : list CSSRule).

Inductive answer :=
| ElementStyles (r : completion (option (gmap string string)))
| PseudoElementStyles (r : completion (option (gmap string (option (gmap string string))))).

Definition loaded : nat := 0.

Definition invoke (c : call) (lastIndex : nat) : answer * nat :=
  match c with
  | GetElementStyles el rules => (ElementStyles (getElementStyles el rules), lastIndex)
  | GetPseudoElementStyles el rules =>
      let '(r, lastIndex') := getPseudoElementStyles el rules lastIndex in
      (PseudoElementStyles r, lastIndex')
  end.

(** The state after a sequence of calls. *)
Definition after (history : list call) : nat :=
  foldl (λ lastIndex c, (invoke c lastIndex).2) loaded history.

End Api.

(** A string with every letter upper-cased, the form in which the [i] flag
    compares. *)
Fixpoint upper (s : string) : string :=
  match s with
  | EmptyString => EmptyString
  | String c s' => String (RegExp.canonicalize c) (upper s')
  end.

(** Reading a property of a pseudo-element off a returned mapping. *)
Definition pseudoProperty (result : gmap string (option (gmap string string)))
    (pseudo name : string) : option string :=
  result !! pseudo ≫= (λ r, property r name).

(** The same off the outcome of [getPseudoElementStyles]: null stays null. *)
Definition pseudoResolved
    (outcome : completion (option (gmap string (option (gmap string string)))))
    (pseudo name : string) : completion (option (option string)) :=
  match outcome with
  | Normal r => Normal ((λ result, pseudoProperty result pseudo name) <$> r)
  | Throw => Throw
  end.

(** ** Sample inputs *)

Definition styleRule (selector : string) (style : CSSStyleDeclaration) : CSSRule :=
  mkRule 1 selector style "" "" [].
Definition mediaRule (query : string) (nested : list CSSRule) : CSSRule :=
  mkRule 4 "" [] query "" nested.
Definition supportsRule (condition : string) (nested : list CSSRule) : CSSRule :=
  mkRule 12 "" [] "" condition nested.
Definition fontFaceRule (style : CSSStyleDeclaration) : CSSRule :=
  mkRule 5 "" style "" "" [].

(** A comparator for the samples: the longer selector counts as the more
    specific one. *)
Definition byLength (a b : string) : Z :=
  (Z.of_nat (String.length a) - Z.of_nat (String.length b))%Z.

Definition sampleWindow : Window :=
  mkWindow (Some (λ query, bool_decide (query = "screen")))
           (λ condition, bool_decide (condition = "(display: grid)")).

Definition sampleDocument : Document :=
  mkDocument
    [[styleRule "p" [decl "color" "red"];
      mediaRule "print" [styleRule "#main .x" [decl "color" "black"]];
      styleRule "div" [decl "margin" "0"];
      mediaRule "screen" [styleRule "a" [decl "color" "blue"];
                          styleRule ".wide" [decl "width" "100%"]];
      fontFaceRule [decl "font-family" "Sample"];
      supportsRule "(display: flex)" [styleRule "ul" [decl "display" "flex"]]];
     [styleRule "em" [decl "font-style" "italic"]]]
    sampleWindow.


(** An element that matches exactly the selectors listed, and the universal
    selector. *)
Definition elementMatching (inline : CSSStyleDeclaration) (selectors : list string) : Element :=
  mkElement inline (λ selector,
    Normal (bool_decide (selector = "*") || bool_decide (selector ∈ selectors))).

(** Reading a property off the outcome of [getElementStyles]. *)
Definition resolved (outcome : completion (option (gmap string string))) (name : string)
  : completion (option string) :=
  r ← outcome; Normal (property r name).

(** ** The resolver, entry by entry *)

(** The entries a block yields, in the order the inner loop reads them. *)
Definition entriesOf (style : CSSStyleDeclaration) : list Resolver.entry :=
  Resolver.readEntry style <$> (d_name <$> style).

Definition entries (styles : list CSSStyleDeclaration) : list Resolver.entry :=
  styles ≫= entriesOf.

Definition runEntries (es : list Resolver.entry) : Resolver.state :=
  foldl Resolver.applyEntry Resolver.init es.

Definition named (name : string) (e : Resolver.entry) : bool :=
  bool_decide (Resolver.e_name e = name).

(** The declaration that decides a property among the entries read, highest
    priority first: the first important one if there is one, otherwise the
    first one. *)
Definition winner (es : list Resolver.entry) (name : string) : option Resolver.entry :=
  match List.find (λ e, named name e && Resolver.e_important e) es with
  | Some e => Some e
  | None => List.find (named name) es
  end.


(** Three rules with selectors of one length, in two sheets. *)
Definition tiedDocument : Document :=
  mkDocument
    [[styleRule "a" [decl "color" "red"]; styleRule "b" [decl "color" "blue"]];
     [styleRule "p" [decl "color" "green"]]]
    sampleWindow.

(** Two occurrences are alike when they sit at the same place and read the
    same once letter case is set aside. *)
Definition alike (m1 m2 : RegExp.result) : Prop :=
  RegExp.index m1 = RegExp.index m2
  ∧ upper (RegExp.whole m1) = upper (RegExp.whole m2)
  ∧ upper (RegExp.group1 m1) = upper (RegExp.group1 m2).

(** ** Rules in force

    [inForce window node rule]: [rule] is a style rule, and it is [node]
    itself or it is reached from the grouping rule [node] through nested
    rules, every grouping rule on the way having a condition that holds. *)
Inductive inForce (window : Window) : CSSRule → CSSRule → Prop :=
| inForce_style rule :
    isStyleRule rule = true → inForce window rule rule
| inForce_group group child rule :
    isStyleRule group = false →
    conditionHolds window group = true →
    child ∈ cssRules group →
    inForce window child rule →
    inForce window group rule.

(** ** Blocks, by property name *)

(** The block holds a declaration of the property. *)
Definition declares (name : string) (style : CSSStyleDeclaration) : bool :=
  bool_decide (name ∈ d_name <$> style).

(** The block holds a declaration of the property and reports it
    important. *)
Definition declaresImportant (name : string) (style : CSSStyleDeclaration) : bool :=
  declares name style && bool_decide (getPropertyPriority style name = "important").

(** * Facts about the resolver *)

Lemma find_app_or {A} (f : A → bool) (l1 l2 : list A) :
  List.find f (l1 ++ l2) =
  match List.find f l1 with Some x => Some x | None => List.find f l2 end.
Proof. induction l1 as [|x l1 IH]; simpl; [done|]. by destruct (f x). Qed.

Lemma find_None_iff {A} (f : A → bool) (l : list A) :
  List.find f l = None ↔ ∀ x, x ∈ l → f x = false.
Proof.
  induction l as [|x l IH]; simpl.
  - split; [|done]. intros _ x Hx. by apply elem_of_nil in Hx.
  - destruct (f x) eqn:Hfx.
    + split; [done|]. intros H. rewrite H in Hfx; [done|]. by left.
    + rewrite IH. split.
      * intros H y [->|Hy]%elem_of_cons; auto.
      * intros H y Hy. apply H. by right.
Qed.

Lemma find_Some_elem {A} (f : A → bool) (l : list A) x :
  List.find f l = Some x → x ∈ l ∧ f x = true.
Proof. intros [H1 H2]%find_some. split; [|done]. by apply list_elem_of_In. Qed.

Lemma run_entries styles : Resolver.run styles = runEntries (entries styles).
Proof.
  unfold Resolver.run, runEntries, entries.
  generalize Resolver.init. induction styles as [|style styles IH]; intros st; [done|].
  change ((style :: styles) ≫= entriesOf) with (entriesOf style ++ (styles ≫= entriesOf)).
  simpl. rewrite foldl_app, IH. f_equal.
  unfold Resolver.applyStyle, entriesOf.
  by rewrite (foldl_fmap Resolver.applyEntry st _ (Resolver.readEntry style)).
Qed.

Lemma runEntries_snoc es e :
  runEntries (es ++ [e]) = Resolver.applyEntry (runEntries es) e.
Proof. unfold runEntries. by rewrite foldl_app. Qed.

(** The assignment happens exactly when the guard holds. *)
Lemma applyEntry_properties st e :
  Resolver.properties (Resolver.applyEntry st e) =
  if Resolver.overwrites st e
  then Some (<[Resolver.e_name e := Resolver.value e]> (default ∅ (Resolver.properties st)))
  else Resolver.properties st.
Proof.
  unfold Resolver.applyEntry, Resolver.overwrites; simpl.
  destruct (Resolver.properties st) as [props|]; simpl.
  - by destruct (Resolver.mayAssign _ _ _).
  - by rewrite insert_empty.
Qed.

Lemma winner_elem es name e :
  winner es name = Some e → e ∈ es ∧ Resolver.e_name e = name.
Proof.
  unfold winner. destruct (List.find _ es) as [e'|] eqn:H1.
  - intros [= ->]. apply find_Some_elem in H1 as [? [H _]%andb_prop].
    split; [done|]. by apply bool_decide_eq_true in H.
  - intros [? H]%find_Some_elem. split; [done|]. by apply bool_decide_eq_true in H.
Qed.

(** What the two locals hold after any sequence of entries. *)
Lemma runEntries_inv es :
  (Resolver.properties (runEntries es) = None ↔ es = [])
  ∧ (∀ name, name ∈ Resolver.important (runEntries es) ↔
       ∃ e, e ∈ es ∧ Resolver.e_name e = name ∧ Resolver.e_important e = true)
  ∧ (∀ name, property (Resolver.properties (runEntries es)) name =
       Resolver.value <$> winner es name).
Proof.
  induction es as [|e es (Knone & Kimp & Kwin)] using rev_ind.
  - split_and!; [done| |done].
    intros name. split; [set_solver|]. intros (e & He & _). by apply elem_of_nil in He.
  - rewrite runEntries_snoc. set (st := runEntries es) in *. clearbody st. split_and!.
    + rewrite applyEntry_properties. split.
      * destruct (Resolver.overwrites st e) eqn:Ho; [done|].
        unfold Resolver.overwrites in Ho. intros H. by rewrite H in Ho.
      * intros H. by apply app_eq_nil in H as [_ ?].
    + intros name. simpl. split.
      * destruct (Resolver.e_important e) eqn:Himp.
        -- intros [->%elem_of_singleton|H]%elem_of_union.
           ++ exists e. split_and!; [|done|done].
              apply elem_of_app. right. by apply list_elem_of_singleton.
           ++ destruct (proj1 (Kimp name) H) as (e' & ? & ? & ?). exists e'.
              split_and!; [|done|done]. apply elem_of_app. by left.
        -- intros H. destruct (proj1 (Kimp name) H) as (e' & ? & ? & ?).
           exists e'. split_and!; [|done|done]. apply elem_of_app. by left.
      * intros (e' & [He'|He']%elem_of_app & Hn & Hi).
        -- assert (name ∈ Resolver.important st) by (apply Kimp; eauto).
           destruct (Resolver.e_important e); [|done]. apply elem_of_union. by right.
        -- apply list_elem_of_singleton in He' as ->. rewrite Hi.
           apply elem_of_union. left. by apply elem_of_singleton.
    + intros name. rewrite applyEntry_properties.
      unfold winner. rewrite !find_app_or. simpl.
      specialize (Kwin name). unfold winner in Kwin.
      destruct (decide (Resolver.e_name e = name)) as [Heq|Hne].
      * unfold named at 2 4. rewrite (bool_decide_eq_true_2 _ Heq). simpl.
        unfold Resolver.overwrites, Resolver.mayAssign.
        destruct (Resolver.properties st) as [props|] eqn:Hprops; simpl in *.
        -- rewrite Heq.
           destruct (props !! name) as [v|] eqn:Hlook.
           ++ rewrite bool_decide_eq_false_2 by done. simpl.
              destruct (List.find (λ e0, named name e0 && Resolver.e_important e0) es)
                as [w|] eqn:Hw.
              ** assert (name ∈ Resolver.important st) as Hin.
                 { apply Kimp. apply find_Some_elem in Hw as [? [Hn ?]%andb_prop].
                   apply bool_decide_eq_true in Hn. eauto. }
                 rewrite (bool_decide_eq_true_2 _ Hin), andb_false_r. simpl.
                 by rewrite Hlook.
              ** assert (name ∉ Resolver.important st) as Hnin.
                 { intros (e' & He' & Hn & Hi)%Kimp.
                   rewrite find_None_iff in Hw. specialize (Hw e' He').
                   unfold named in Hw. rewrite (bool_decide_eq_true_2 _ Hn), Hi in Hw.
                   done. }
                 rewrite (bool_decide_eq_false_2 _ Hnin). simpl. rewrite andb_true_r.
                 destruct (Resolver.e_important e); simpl.
                 --- by rewrite lookup_insert_eq.
                 --- rewrite Hlook.
                     by destruct (List.find (named name) es).
           ++ rewrite bool_decide_eq_true_2 by done. simpl. rewrite lookup_insert_eq.
              destruct (List.find (λ e0, named name e0 && Resolver.e_important e0) es)
                as [w|]; [done|].
              destruct (List.find (named name) es); [done|].
              by destruct (Resolver.e_important e).
        -- rewrite Heq, lookup_insert_eq.
           rewrite (proj1 Knone eq_refl). simpl. by destruct (Resolver.e_important e).
      * unfold named at 2 4. rewrite (bool_decide_eq_false_2 _ Hne). simpl.
        assert (property (if Resolver.overwrites st e
                  then Some (<[Resolver.e_name e:=Resolver.value e]>
                               (default ∅ (Resolver.properties st)))
                  else Resolver.properties st) name
                = property (Resolver.properties st) name) as ->.
        { destruct (Resolver.overwrites st e); [|done]. simpl.
          rewrite lookup_insert_ne by done.
          destruct (Resolver.properties st); simpl; [done|by rewrite lookup_empty]. }
        rewrite Kwin.
        destruct (List.find (λ e0, named name e0 && Resolver.e_important e0) es); [done|].
        by destruct (List.find (named name) es).
Qed.

Lemma resolved_is_winner styles name :
  property (getAppliedPropertiesForStyles styles) name =
  Resolver.value <$> winner (entries styles) name.
Proof.
  unfold getAppliedPropertiesForStyles. rewrite run_entries.
  apply (runEntries_inv (entries styles)).
Qed.

Lemma entries_elem styles e :
  e ∈ entries styles ↔
  ∃ style d, style ∈ styles ∧ d ∈ style ∧ e = Resolver.readEntry style (d_name d).
Proof.
  unfold entries, entriesOf. rewrite list_elem_of_bind. split.
  - intros (style & He & Hstyle).
    apply list_elem_of_fmap in He as (name & -> & (d & -> & Hd)%list_elem_of_fmap).
    eauto.
  - intros (style & d & Hstyle & Hd & ->). exists style. split; [|done].
    apply list_elem_of_fmap. exists (d_name d). split; [done|].
    apply list_elem_of_fmap. eauto.
Qed.



(** What is read for a name once the declaration that goes by it is known:
    the declaration's priority, and its value text unless the property is a
    custom one. *)
Lemma readEntry_named style name d :
  namedDecl style name = Some d →
  Resolver.readEntry style name =
  Resolver.mkEntry name
    (if isCustomProperty name then "undefined" else d_value d)
    (bool_decide (d_priority d = "important")).
Proof.
  intros Hnamed.
  unfold Resolver.readEntry, styleValue, styleAttribute, getPropertyValue,
    getPropertyPriority.
  rewrite Hnamed. by destruct (isCustomProperty name).
Qed.


(** In a block whose property names are distinct, the entry read for a
    declaration goes by that declaration itself. *)
Lemma readEntry_decl style d :
  NoDup (d_name <$> style) → d ∈ style →
  Resolver.readEntry style (d_name d) =
  Resolver.mkEntry (d_name d)
    (if isCustomProperty (d_name d) then "undefined" else d_value d)
    (bool_decide (d_priority d = "important")).
Proof.
  intros Hnd Hd. apply readEntry_named.
  unfold namedDecl. induction style as [|d' style IH]; [by apply elem_of_nil in Hd|].
  simpl. apply NoDup_cons in Hnd as [Hnotin Hnd].
  apply elem_of_cons in Hd as [->|Hd].
  - by rewrite bool_decide_eq_true_2.
  - rewrite bool_decide_eq_false_2; [by apply IH|].
    intros Heq. apply Hnotin. rewrite Heq. apply list_elem_of_fmap. eauto.
Qed.

Lemma entries_nil styles : entries styles = [] ↔ concat styles = [].
Proof.
  unfold entries. induction styles as [|style styles IH]; [done|].
  change ((style :: styles) ≫= entriesOf) with (entriesOf style ++ (styles ≫= entriesOf)).
  simpl. rewrite !app_nil, IH. unfold entriesOf.
  split; intros [H1 H2]; split; try done.
  - by repeat apply fmap_nil_inv in H1.
  - by rewrite H1.
Qed.

(** Among the entries, the first one that satisfies a test. *)
Lemma first_such {A} (f : A → bool) (l : list A) x :
  x ∈ l → f x = true →
  ∃ l1 y l2, l = l1 ++ y :: l2 ∧ f y = true ∧ ∀ z, z ∈ l1 → f z = false.
Proof.
  induction l as [|a l IH]; [by intros ?%elem_of_nil|].
  intros Hx Hfx. destruct (f a) eqn:Hfa.
  - exists [], a, l. split_and!; [done|done|]. by intros z ?%elem_of_nil.
  - apply elem_of_cons in Hx as [->|Hx]; [congruence|].
    destruct (IH Hx Hfx) as (l1 & y & l2 & -> & Hy & Hl1).
    exists (a :: l1), y, l2. split_and!; [done|done|].
    intros z [->|Hz]%elem_of_cons; auto.
Qed.

(** The set [important] records exactly the properties whose resolved value
    was written by an important declaration. *)
Lemma important_iff_written es name :
  name ∈ Resolver.important (runEntries es) ↔
  ∃ es1 e' es2, es = es1 ++ e' :: es2 ∧ Resolver.e_name e' = name
    ∧ Resolver.e_important e' = true ∧ Resolver.overwrites (runEntries es1) e' = true.
Proof.
  destruct (runEntries_inv es) as (_ & Himp & _). rewrite Himp. split.
  - intros (e & He & Hname & Hi).
    destruct (first_such (λ e, named name e && Resolver.e_important e) es e He)
      as (es1 & e' & es2 & -> & [Hn Hi']%andb_prop & Hfirst).
    { unfold named. by rewrite bool_decide_eq_true_2, Hi. }
    apply bool_decide_eq_true in Hn.
    exists es1, e', es2. split_and!; [done..|].
    destruct (runEntries_inv es1) as (_ & Himp1 & _).
    assert (name ∉ Resolver.important (runEntries es1)) as Hnin.
    { intros (e1 & He1 & Hn1 & Hi1)%Himp1. specialize (Hfirst e1 He1).
      unfold named in Hfirst. by rewrite bool_decide_eq_true_2, Hi1 in Hfirst. }
    unfold Resolver.overwrites, Resolver.mayAssign.
    destruct (Resolver.properties _); [|done].
    rewrite Hi', Hn, (bool_decide_eq_false_2 _ Hnin). simpl. apply orb_true_r.
  - intros (es1 & e' & es2 & -> & Hn & Hi & _). exists e'. split_and!; [|done..].
    apply elem_of_app. right. by left.
Qed.

Lemma winner_declared styles name e :
  winner (entries styles) name = Some e →
  ∃ style d, style ∈ styles ∧ d ∈ style ∧ d_name d = name
    ∧ e = Resolver.readEntry style name.
Proof.
  intros [(style & d & ? & ? & ->)%entries_elem Hname]%winner_elem.
  simpl in Hname. subst name. eauto 10.
Qed.



(** With the property names of every block distinct, as in a declaration
    block of the host, the stored value goes by the deciding declaration
    itself. *)
Lemma resolved_value_of_declaration styles name v :
  Forall (λ style, NoDup (d_name <$> style)) styles →
  property (getAppliedPropertiesForStyles styles) name = Some v →
  ∃ style d, style ∈ styles ∧ d ∈ style ∧ d_name d = name
    ∧ v = (if isCustomProperty name then "undefined" else d_value d)
          +:+ (if bool_decide (d_priority d = "important") then " !important" else "").
Proof.
  intros Hnd. rewrite resolved_is_winner.
  destruct (winner (entries styles) name) as [e|] eqn:Hw; [|done]. intros [= <-].
  apply winner_elem in Hw as [(style & d & Hstyle & Hd & ->)%entries_elem Hname].
  rewrite Forall_forall in Hnd. rewrite (readEntry_decl style d) by auto.
  simpl in Hname. subst name. exists style, d. by split_and!.
Qed.

(** C2, as amended: the guard of the assignment holds exactly when no value
    is resolved yet for the property, or the new declaration is important and
    no value written earlier for the property came from an important
    declaration; the assignment happens exactly when the guard holds.  The
    values stored for the two sample inputs are those of the red and of the
    blue declaration, each with its marker. *)
Theorem overwrite_rule :
  (∀ styles, getAppliedPropertiesForStyles styles
             = Resolver.properties (runEntries (entries styles)))
  ∧ (∀ es e,
       (Resolver.overwrites (runEntries es) e = true ↔
          property (Resolver.properties (runEntries es)) (Resolver.e_name e) = None
          ∨ (Resolver.e_important e = true
             ∧ ¬ ∃ es1 e' es2, es = es1 ++ e' :: es2
                 ∧ Resolver.e_name e' = Resolver.e_name e
                 ∧ Resolver.e_important e' = true
                 ∧ Resolver.overwrites (runEntries es1) e' = true))
       ∧ Resolver.properties (runEntries (es ++ [e])) =
           if Resolver.overwrites (runEntries es) e
           then Some (<[Resolver.e_name e := Resolver.value e]>
                        (default ∅ (Resolver.properties (runEntries es))))
           else Resolver.properties (runEntries es))
  ∧ property (getAppliedPropertiesForStyles
                [[decl_important "color" "red"]; [decl_important "color" "blue"]]) "color"
      = Some "red !important"
  ∧ property (getAppliedPropertiesForStyles
                [[decl "color" "red"]; [decl_important "color" "blue"];
                 [decl "color" "green"]]) "color"
      = Some "blue !important".
Proof.
  split_and!; [| |by vm_compute..].
  - intros styles. unfold getAppliedPropertiesForStyles. by rewrite run_entries.
  - intros es e. split; [|by rewrite runEntries_snoc, applyEntry_properties].
    rewrite <- important_iff_written.
    unfold Resolver.overwrites, Resolver.mayAssign, property.
    destruct (Resolver.properties (runEntries es)) as [props|]; simpl; [|tauto].
    rewrite orb_true_iff, andb_true_iff, negb_true_iff.
    rewrite bool_decide_eq_true, bool_decide_eq_false. tauto.
Qed.

(** C2, as stated, fails on its own sample: the resolved color is not the
    text "red". *)
Lemma important_chain_not_bare :
  property (getAppliedPropertiesForStyles
              [[decl_important "color" "red"]; [decl_important "color" "blue"]]) "color"
  ≠ Some "red".
Proof. vm_compute. discriminate. Qed.

(** C8, as amended: the resolver returns null exactly when no block of the
    sequence holds a declaration, which includes the empty sequence; it
    returns a map as soon as one block declares a property. *)
Theorem resolver_null_iff_no_declaration styles :
  getAppliedPropertiesForStyles styles = None ↔ Forall (λ style, style = []) styles.
Proof.
  unfold getAppliedPropertiesForStyles. rewrite run_entries.
  destruct (runEntries_inv (entries styles)) as (-> & _ & _).
  rewrite entries_nil. induction styles as [|style styles IH]; simpl.
  - split; [constructor|done].
  - rewrite app_nil, Forall_cons, IH. done.
Qed.

(** C8, as stated, fails: a sequence that is not empty, of one empty block,
    resolves to null. *)
Lemma resolver_null_on_nonempty_sequence :
  getAppliedPropertiesForStyles [[]] = None
  ∧ ([[]] : list CSSStyleDeclaration) ≠ [].
Proof. split; [reflexivity|discriminate]. Qed.

(** * Facts about [getElementStyles] *)

Lemma matchingRules_filter el rules :
  matchingRules el rules =
  if decide (Forall (λ rule, el_matches el (selectorText rule) ≠ Throw) rules)
  then Normal (filter (λ rule, el_matches el (selectorText rule) = Normal true) rules)
  else Throw.
Proof.
  induction rules as [|rule rules IH]; cbn [matchingRules].
  - by rewrite decide_True by constructor.
  - rewrite IH. destruct (el_matches el (selectorText rule)) as [keep|] eqn:Hm;
      cbn [mbind completion_bind].
    + destruct (decide (Forall _ rules)) as [Hall|Hnot]; cbn [mbind completion_bind].
      * rewrite decide_True by (constructor; [by rewrite Hm|done]).
        rewrite filter_cons, Hm. destruct keep.
        -- by rewrite decide_True.
        -- by rewrite decide_False.
      * rewrite decide_False; [done|]. by intros [_ ?]%Forall_cons.
    + rewrite decide_False; [done|]. intros [H _]%Forall_cons. by rewrite Hm in H.
Qed.

(** The winner when the first block is singled out: an important
    declaration of the first block, else an important one further down,
    else a plain one of the first block, else a plain one further down. *)
Lemma winner_app first rest name :
  winner (first ++ rest) name =
  match List.find (λ e, named name e && Resolver.e_important e) first with
  | Some e => Some e
  | None =>
      match List.find (λ e, named name e && Resolver.e_important e) rest with
      | Some e => Some e
      | None =>
          match List.find (named name) first with
          | Some e => Some e
          | None => List.find (named name) rest
          end
      end
  end.
Proof.
  unfold winner. rewrite !find_app_or.
  destruct (List.find (λ e, named name e && Resolver.e_important e) first); [done|].
  by destruct (List.find (λ e, named name e && Resolver.e_important e) rest).
Qed.

(** C3, as amended: the inline block of the element is the head of the
    sequence handed to the resolver, followed by the blocks of the rules the
    element matches, in their order in the rule list; so a property is decided
    by the inline block unless the inline declaration is not important and a
    matching rule holds an important one.  Inline color:red with a matching
    rule color:blue !important resolves color to the blue declaration, stored
    with its marker. *)
Theorem inline_block_first :
  (∀ el rules,
     getElementStyles el rules =
     if decide (Forall (λ rule, el_matches el (selectorText rule) ≠ Throw) rules)
     then Normal (getAppliedPropertiesForStyles
                    (el_style el ::
                     (style <$> filter (λ rule, el_matches el (selectorText rule) = Normal true)
                                  rules)))
     else Throw)
  ∧ (∀ inline blocks name,
       property (getAppliedPropertiesForStyles (inline :: blocks)) name =
       Resolver.value <$>
       match List.find (λ e, named name e && Resolver.e_important e) (entriesOf inline) with
       | Some e => Some e
       | None =>
           match List.find (λ e, named name e && Resolver.e_important e) (entries blocks) with
           | Some e => Some e
           | None =>
               match List.find (named name) (entriesOf inline) with
               | Some e => Some e
               | None => List.find (named name) (entries blocks)
               end
           end
       end)
  ∧ resolved (getElementStyles (elementMatching [decl "color" "red"] ["div"])
                 [styleRule "div" [decl_important "color" "blue"]]) "color"
    = Normal (Some "blue !important").
Proof.
  split_and!; [| |by vm_compute].
  - intros el rules. unfold getElementStyles. rewrite matchingRules_filter.
    by destruct (decide _).
  - intros inline blocks name. rewrite resolved_is_winner.
    change (entries (inline :: blocks)) with (entriesOf inline ++ entries blocks).
    by rewrite winner_app.
Qed.

(** C3, as stated, fails on its own sample: the resolved color is not the
    text "blue". *)
Lemma important_rule_over_inline_not_bare :
  resolved (getElementStyles (elementMatching [decl "color" "red"] ["div"])
              [styleRule "div" [decl_important "color" "blue"]]) "color"
  ≠ Normal (Some "blue").
Proof. vm_compute. discriminate. Qed.

(** * Facts about rule collection *)

(** Induction on a rule with the hypothesis for every nested rule. *)
Lemma CSSRule_nested_ind (P : CSSRule → Prop) :
  (∀ t selector block media condition nested,
     Forall P nested → P (mkRule t selector block media condition nested)) →
  ∀ rule, P rule.
Proof.
  intros step. fix IH 1. intros [t selector block media condition nested].
  apply step. induction nested as [|r nested IHnested]; constructor; [apply IH|done].
Qed.

Lemma getStyleRulesFromRule_eq window rule :
  getStyleRulesFromRule window rule =
  if isStyleRule rule then [rule]
  else if isMediaRule rule && bool_decide (is_Some (matchMedia window)) then
    if from_option (λ query, query (mediaText rule)) false (matchMedia window)
    then getStyleRulesFromSheet (cssRules rule) window else []
  else if isSupportsRule rule then
    if CSS_supports window (conditionText rule)
    then getStyleRulesFromSheet (cssRules rule) window else []
  else [].
Proof.
  destruct rule as [t selector block media condition nested]. simpl.
  assert ((fix loop (curRules : list CSSRule) : list CSSRule :=
             match curRules with
             | [] => []
             | r :: rest => loop rest ++ getStyleRulesFromRule window r
             end) nested = getStyleRulesFromSheet nested window) as ->; [|done].
  induction nested as [|r nested IH]; simpl; [done|]. by rewrite IH.
Qed.

Lemma declaredByRule_eq window rule :
  declaredByRule window rule =
  if isStyleRule rule then [rule]
  else if conditionHolds window rule then declarationOrder (cssRules rule) window else [].
Proof.
  destruct rule as [t selector block media condition nested]. simpl.
  assert ((fix loop (curRules : list CSSRule) : list CSSRule :=
             match curRules with
             | [] => []
             | r :: rest => declaredByRule window r ++ loop rest
             end) nested = declarationOrder nested window) as ->; [|done].
  induction nested as [|r nested IH]; simpl; [done|]. by rewrite IH.
Qed.

(** The guard of the two grouping branches is [conditionHolds]. *)
Lemma getStyleRulesFromRule_gate window rule :
  getStyleRulesFromRule window rule =
  if isStyleRule rule then [rule]
  else if conditionHolds window rule then getStyleRulesFromSheet (cssRules rule) window
  else [].
Proof.
  rewrite getStyleRulesFromRule_eq. unfold conditionHolds, isMediaRule, isSupportsRule.
  destruct (isStyleRule rule); [done|].
  destruct (type rule =? 4)%N eqn:H4; simpl.
  - apply N.eqb_eq in H4. rewrite H4. simpl.
    destruct (matchMedia window) as [query|]; simpl; [|done].
    by rewrite orb_false_r.
  - by destruct (type rule =? 12)%N.
Qed.

Lemma getStyleRulesFromSheet_app before after window :
  getStyleRulesFromSheet (before ++ after) window =
  getStyleRulesFromSheet after window ++ getStyleRulesFromSheet before window.
Proof.
  induction before as [|rule before IH]; simpl; [by rewrite app_nil_r|].
  by rewrite IH, app_assoc.
Qed.

Lemma getStyleRulesFromRule_style window rule :
  Forall (λ r, isStyleRule r = true) (getStyleRulesFromRule window rule).
Proof.
  induction rule as [t selector block media condition nested IH] using CSSRule_nested_ind.
  rewrite getStyleRulesFromRule_gate.
  destruct (isStyleRule _) eqn:Hs; [by repeat constructor|]. clear Hs.
  destruct (conditionHolds _ _); [|constructor]. simpl.
  induction IH as [|r nested Hr _ IHnested]; simpl; [constructor|].
  apply Forall_app. by split.
Qed.

(** Discovery order is declaration order read backwards. *)
Lemma getStyleRulesFromRule_rev window rule :
  getStyleRulesFromRule window rule = rev (declaredByRule window rule).
Proof.
  induction rule as [t selector block media condition nested IH] using CSSRule_nested_ind.
  rewrite getStyleRulesFromRule_gate, declaredByRule_eq.
  destruct (isStyleRule _); [done|]. destruct (conditionHolds _ _); [|done]. simpl.
  induction IH as [|r nested Hr _ IHnested]; simpl; [done|].
  by rewrite rev_app_distr, IHnested, Hr.
Qed.

Lemma getStyleRulesFromSheet_rev sheet window :
  getStyleRulesFromSheet sheet window = rev (declarationOrder sheet window).
Proof.
  induction sheet as [|rule sheet IH]; simpl; [done|].
  by rewrite rev_app_distr, IH, getStyleRulesFromRule_rev.
Qed.

(** C6: the collected sequence holds style rules only.  A media or supports
    group whose condition is false pushes nothing, whatever it nests, a rule
    of any other kind pushes nothing, and a rule that pushes nothing leaves
    the sequence as it is without that rule; a group whose condition holds
    pushes what its nested rules yield. *)
Theorem collected_rules_are_style_rules window :
  (∀ sheet, Forall (λ rule, isStyleRule rule = true) (getStyleRulesFromSheet sheet window))
  ∧ (∀ rule, isMediaRule rule = true →
       from_option (λ query, query (mediaText rule)) false (matchMedia window) = false →
       getStyleRulesFromRule window rule = [])
  ∧ (∀ rule, isSupportsRule rule = true →
       CSS_supports window (conditionText rule) = false →
       getStyleRulesFromRule window rule = [])
  ∧ (∀ rule, isStyleRule rule = false → isMediaRule rule = false →
       isSupportsRule rule = false →
       getStyleRulesFromRule window rule = [])
  ∧ (∀ before rule after,
       getStyleRulesFromSheet (before ++ rule :: after) window =
       getStyleRulesFromSheet after window ++ getStyleRulesFromRule window rule
         ++ getStyleRulesFromSheet before window)
  ∧ (∀ rule, isStyleRule rule = false → conditionHolds window rule = true →
       getStyleRulesFromRule window rule = getStyleRulesFromSheet (cssRules rule) window).
Proof.
  split_and!.
  - induction sheet as [|rule sheet IH]; simpl; [constructor|].
    apply Forall_app. split; [done|]. apply getStyleRulesFromRule_style.
  - intros rule Hm Hq. rewrite getStyleRulesFromRule_eq.
    unfold isStyleRule, isMediaRule, isSupportsRule in *.
    apply N.eqb_eq in Hm. rewrite Hm, Hq. simpl. by destruct (bool_decide _).
  - intros rule Hs Hc. rewrite getStyleRulesFromRule_eq.
    unfold isStyleRule, isMediaRule, isSupportsRule in *.
    apply N.eqb_eq in Hs. by rewrite Hs, Hc.
  - intros rule H1 H4 H12. by rewrite getStyleRulesFromRule_eq, H1, H4, H12.
  - intros before rule after. rewrite getStyleRulesFromSheet_app. simpl.
    by rewrite <- app_assoc.
  - intros rule H1 Hc. by rewrite getStyleRulesFromRule_gate, H1, Hc.
Qed.

(** * Facts about the specificity order *)

Section Specificity.
Context (compare : string → string → Z).
(** The comparator is consistent: swapping the arguments swaps the sign,
    and "at most as specific as" is transitive. *)
Hypothesis compare_flip : ∀ a b, (compare a b ≤ 0 ↔ 0 ≤ compare b a)%Z.
Hypothesis compare_trans :
  ∀ a b c, (compare a b ≤ 0 → compare b c ≤ 0 → compare a c ≤ 0)%Z.

Lemma sortInsert_perm x (l : list CSSRule) :
  sortInsert (bySpecificity compare) x l ≡ₚ x :: l.
Proof.
  induction l as [|y l IH]; simpl; [done|].
  destruct (_ <=? 0)%Z; [done|]. rewrite IH. apply Permutation_swap.
Qed.

Lemma sort_perm (l : list CSSRule) : sort (bySpecificity compare) l ≡ₚ l.
Proof.
  induction l as [|x l IH]; simpl; [done|]. by rewrite sortInsert_perm, IH.
Qed.

Lemma sortInsert_sorted x l :
  StronglySorted (mayPrecede compare) l →
  StronglySorted (mayPrecede compare) (sortInsert (bySpecificity compare) x l).
Proof.
  induction 1 as [|y l Hsorted IH Hy]; simpl; [by repeat constructor|].
  destruct (_ <=? 0)%Z eqn:Hle.
  - apply Z.leb_le in Hle. constructor; [by constructor|].
    constructor; [done|]. eapply Forall_impl; [exact Hy|].
    intros z Hz. unfold mayPrecede, bySpecificity in *. eapply compare_trans; eauto.
  - apply Z.leb_gt in Hle. constructor; [done|].
    rewrite sortInsert_perm. constructor; [|done].
    unfold mayPrecede, bySpecificity in *. apply compare_flip. lia.
Qed.

Lemma sort_sorted l : StronglySorted (mayPrecede compare) (sort (bySpecificity compare) l).
Proof.
  induction l as [|x l IH]; simpl; [constructor|]. by apply sortInsert_sorted.
Qed.

Lemma sorted_lookup (l : list CSSRule) i j a b :
  StronglySorted (mayPrecede compare) l → l !! i = Some a → l !! j = Some b → i < j →
  mayPrecede compare a b.
Proof.
  intros Hsorted. revert i j. induction Hsorted as [|x l _ IH Hx]; intros i j; [done|].
  destruct i as [|i], j as [|j]; simpl; try lia.
  - intros [= <-] Hb _. rewrite Forall_forall in Hx. apply Hx.
    by eapply list_elem_of_lookup_2.
  - intros Ha Hb Hlt. apply (IH i j); [done..|lia].
Qed.

(** Walking past the rules that must precede [x] does not cross a rule of
    the specificity class of [x]. *)
Lemma sortInsert_class s x l :
  filter (λ r, compare (selectorText r) s = 0%Z) (sortInsert (bySpecificity compare) x l) =
  filter (λ r, compare (selectorText r) s = 0%Z) (x :: l).
Proof.
  induction l as [|y l IH]; simpl; [done|].
  destruct (_ <=? 0)%Z eqn:Hle; [done|]. apply Z.leb_gt in Hle.
  rewrite filter_cons, IH, !filter_cons.
  destruct (decide (compare (selectorText y) s = 0%Z)) as [Hy|Hy]; [|done].
  destruct (decide (compare (selectorText x) s = 0%Z)) as [Hx|Hx]; [|done].
  exfalso. unfold bySpecificity in Hle.
  assert (compare s (selectorText x) ≤ 0)%Z by (apply compare_flip; lia).
  assert (compare (selectorText y) (selectorText x) ≤ 0)%Z
    by (eapply compare_trans; [|done]; lia).
  lia.
Qed.

Lemma sort_class s l :
  filter (λ r, compare (selectorText r) s = 0%Z) (sort (bySpecificity compare) l) =
  filter (λ r, compare (selectorText r) s = 0%Z) l.
Proof.
  induction l as [|x l IH]; simpl; [done|].
  by rewrite sortInsert_class, !filter_cons, IH.
Qed.

Lemma collectedRules_concat document :
  collectedRules document =
  concat ((λ sheet, getStyleRulesFromSheet sheet (defaultView document))
            <$> styleSheets document).
Proof.
  unfold collectedRules.
  generalize ((λ sheet, getStyleRulesFromSheet sheet (defaultView document))
                <$> styleSheets document).
  intros ls. rewrite <- (app_nil_l (concat ls)). generalize (@nil CSSRule).
  induction ls as [|l ls IH]; intros acc; simpl; [by rewrite app_nil_r|].
  unfold flatten at 2. by rewrite IH, app_assoc.
Qed.

(** C4: the rule list of a document is the collected rules rearranged so
    that a rule stands before every rule whose selector is strictly less
    specific than its own, wherever the two were collected; rules whose
    selectors compare equal stay in the order of collection, which lists the
    sheets one after another, each in its declaration order read
    backwards. *)
Theorem sorted_by_descending_specificity document :
  getDocumentStyleRules compare document ≡ₚ collectedRules document
  ∧ (∀ i j a b,
       getDocumentStyleRules compare document !! i = Some a →
       getDocumentStyleRules compare document !! j = Some b →
       (0 < compare (selectorText a) (selectorText b))%Z →
       i < j)
  ∧ (∀ s,
       filter (λ r, compare (selectorText r) s = 0%Z) (getDocumentStyleRules compare document)
       = filter (λ r, compare (selectorText r) s = 0%Z) (collectedRules document))
  ∧ collectedRules document =
    concat ((λ sheet, rev (declarationOrder sheet (defaultView document)))
              <$> styleSheets document).
Proof.
  unfold getDocumentStyleRules. split_and!.
  - apply sort_perm.
  - intros i j a b Ha Hb Hgt. destruct (decide (i < j)) as [|Hge]; [done|]. exfalso.
    destruct (decide (i = j)) as [->|Hne].
    + rewrite Ha in Hb. injection Hb as <-.
      pose proof (proj2 (compare_flip (selectorText a) (selectorText a))). lia.
    + pose proof (sorted_lookup _ j i b a (sort_sorted _) Hb Ha) as Hle.
      unfold mayPrecede, bySpecificity in Hle. lia.
  - intros s. apply sort_class.
  - rewrite collectedRules_concat. f_equal. apply list_fmap_ext.
    intros _ sheet _. apply getStyleRulesFromSheet_rev.
Qed.

End Specificity.

(** * Facts about the pseudo-element scan *)

Lemma scanSelector_step selectorText lastIndex baseSelector seenPseudos :
  scanSelector selectorText lastIndex baseSelector seenPseudos =
  match RegExp.exec lastIndex selectorText with
  | (Some m, lastIndex') =>
      scanSelector selectorText lastIndex' (withoutMatch selectorText m)
        (seeName seenPseudos (pseudoName m))
  | (None, lastIndex') => (baseSelector, seenPseudos, lastIndex')
  end.
Proof.
  funelim (scanSelector selectorText lastIndex baseSelector seenPseudos);
    by match goal with H : RegExp.exec _ _ = _ |- _ => rewrite H end.
Qed.

Lemma execAll_step selectorText lastIndex :
  execAll selectorText lastIndex =
  match RegExp.exec lastIndex selectorText with
  | (Some m, lastIndex') => m :: execAll selectorText lastIndex'
  | (None, _) => []
  end.
Proof.
  funelim (execAll selectorText lastIndex);
    by match goal with H : RegExp.exec _ _ = _ |- _ => rewrite H end.
Qed.

Lemma exec_None lastIndex str lastIndex' :
  RegExp.exec lastIndex str = (None, lastIndex') → lastIndex' = 0.
Proof.
  unfold RegExp.exec. case_bool_decide; [by intros [= <-]|].
  destruct (RegExp.search _ _) as [[[??]?]|]; [done|by intros [= <-]].
Qed.

(** The loop leaves the selector without its last occurrence, the names of
    all occurrences in the order first seen, and the pattern object rewound. *)
Lemma scanSelector_execAll selectorText lastIndex baseSelector seenPseudos :
  scanSelector selectorText lastIndex baseSelector seenPseudos =
  (from_option (withoutMatch selectorText) baseSelector
     (last (execAll selectorText lastIndex)),
   foldl seeName seenPseudos (pseudoName <$> execAll selectorText lastIndex),
   0).
Proof.
  remember (S (String.length selectorText) - lastIndex) as n eqn:Hn.
  revert lastIndex baseSelector seenPseudos Hn.
  induction n as [n IH] using lt_wf_ind. intros lastIndex baseSelector seenPseudos ->.
  rewrite scanSelector_step, execAll_step.
  destruct (RegExp.exec lastIndex selectorText) as [[m|] lastIndex'] eqn:Hexec.
  - pose proof (exec_progress _ _ _ _ Hexec).
    rewrite (IH (S (String.length selectorText) - lastIndex')); [|lia|done].
    rewrite last_cons. simpl. by destruct (last _).
  - by rewrite (exec_None _ _ _ Hexec).
Qed.

Lemma seeName_fold_Some seen names :
  NoDup seen →
  ∃ seen', foldl seeName (Some seen) names = Some seen'
    ∧ NoDup seen' ∧ ∀ name, name ∈ seen' ↔ name ∈ seen ∨ name ∈ names.
Proof.
  revert seen. induction names as [|n names IH]; intros seen Hnd; simpl.
  - exists seen. split_and!; [done..|]. intros name. rewrite elem_of_nil. tauto.
  - case_bool_decide as Hin.
    + destruct (IH seen Hnd) as (seen' & -> & Hnd' & Hmem). exists seen'.
      split_and!; [done..|]. intros name. rewrite Hmem, elem_of_cons.
      split; [tauto|]. intros [?|[->|?]]; tauto.
    + destruct (IH (seen ++ [n])) as (seen' & -> & Hnd' & Hmem).
      { apply NoDup_app. split_and!; [done| |apply NoDup_singleton].
        intros x Hx ->%list_elem_of_singleton. done. }
      exists seen'. split_and!; [done..|]. intros name.
      rewrite Hmem, elem_of_app, list_elem_of_singleton, elem_of_cons. tauto.
Qed.

Lemma seeName_fold names :
  match foldl seeName None names with
  | Some seen => names ≠ [] ∧ NoDup seen ∧ ∀ name, name ∈ seen ↔ name ∈ names
  | None => names = []
  end.
Proof.
  destruct names as [|n names]; simpl; [done|].
  destruct (seeName_fold_Some [n] names) as (seen & -> & Hnd & Hmem);
    [apply NoDup_singleton|].
  split_and!; [done..|]. intros name.
  rewrite Hmem, list_elem_of_singleton, elem_of_cons. tauto.
Qed.

Lemma pushStyle_fold block grouped seen name :
  NoDup seen →
  foldl (pushStyle block) grouped seen !! name =
  if decide (name ∈ seen) then Some (default [] (grouped !! name) ++ [block])
  else grouped !! name.
Proof.
  revert grouped. induction seen as [|n seen IH]; intros grouped Hnd; cbn [foldl].
  - rewrite decide_False; [done|]. by intros ?%elem_of_nil.
  - apply NoDup_cons in Hnd as [Hn Hnd]. rewrite IH by done. unfold pushStyle.
    destruct (decide (name = n)) as [->|Hne].
    + rewrite (decide_False (P := n ∈ seen)) by done.
      rewrite decide_True by (by left). by rewrite lookup_insert_eq.
    + rewrite lookup_insert_ne by done.
      destruct (decide (name ∈ seen)).
      * rewrite decide_True; [done|]. by right.
      * rewrite decide_False; [done|]. by intros [?|?]%elem_of_cons.
Qed.

(** [baseSelector || "*"] after the loop is [strippedSelector]. *)
Lemma groupRule_eq el grouped rule lastIndex :
  groupRule el grouped rule lastIndex =
  let occurrences := execAll (selectorText rule) lastIndex in
  match foldl seeName None (pseudoName <$> occurrences) with
  | Some seen =>
      match el_matches el
              (orStar (from_option (withoutMatch (selectorText rule)) (selectorText rule)
                         (last occurrences))) with
      | Normal true => (Normal (foldl (pushStyle (style rule)) grouped seen), 0)
      | Normal false => (Normal grouped, 0)
      | Throw => (Throw, 0)
      end
  | None => (Normal grouped, 0)
  end.
Proof. unfold groupRule. by rewrite scanSelector_execAll. Qed.

(** * Facts about [getPseudoElementStyles] *)

Lemma groupRule_outcome el grouped rule :
  (pseudoNames (selectorText rule) = []
   ∧ groupRule el grouped rule 0 = (Normal grouped, 0))
  ∨ (throwsOn el rule ∧ groupRule el grouped rule 0 = (Throw, 0))
  ∨ (pseudoNames (selectorText rule) ≠ []
     ∧ ¬ throwsOn el rule
     ∧ ∃ grouped', groupRule el grouped rule 0 = (Normal grouped', 0)
         ∧ ∀ name, grouped' !! name =
             if decide (contributes el name rule)
             then Some (default [] (grouped !! name) ++ [style rule])
             else grouped !! name).
Proof.
  rewrite groupRule_eq. cbn zeta.
  change (orStar _) with (strippedSelector (selectorText rule)).
  fold (pseudoNames (selectorText rule)).
  pose proof (seeName_fold (pseudoNames (selectorText rule))) as Hseen.
  destruct (foldl seeName None _) as [seen|]; [|by left].
  destruct Hseen as (Hne & Hnd & Hmem). right.
  destruct (el_matches el (strippedSelector (selectorText rule))) as [[|]|] eqn:Hm;
    [right|right|by left].
  - split_and!; [done| |].
    { intros [_ H]. by rewrite Hm in H. }
    eexists. split; [done|].
    intros name. rewrite pushStyle_fold by done.
    destruct (decide (name ∈ seen)) as [Hin|Hin].
    + rewrite decide_True; [done|]. split; [by apply Hmem|done].
    + rewrite decide_False; [done|]. intros [? _]. by apply Hin, Hmem.
  - split_and!; [done| |].
    { intros [_ H]. by rewrite Hm in H. }
    eexists. split; [done|].
    intros name. rewrite decide_False; [done|]. intros [_ H]. by rewrite Hm in H.
Qed.

Lemma groupRule_rewinds el grouped rule lastIndex :
  (groupRule el grouped rule lastIndex).2 = 0.
Proof.
  rewrite groupRule_eq. cbn zeta. destruct (foldl seeName None _); [|done].
  by destruct (el_matches el _) as [[|]|].
Qed.

Lemma groupRules_rewinds el grouped rules :
  (groupRules el grouped rules 0).2 = 0.
Proof.
  revert grouped. induction rules as [|rule rules IH]; intros grouped; simpl; [done|].
  pose proof (groupRule_rewinds el grouped rule 0) as H0.
  destruct (groupRule el grouped rule 0) as [[grouped'|] lastIndex']; simpl in *; subst;
    [apply IH|done].
Qed.

Lemma groupRules_throws el grouped rules :
  (groupRules el grouped rules 0).1 = Throw ↔ Exists (throwsOn el) rules.
Proof.
  revert grouped. induction rules as [|rule rules IH]; intros grouped; simpl.
  - split; [done|]. by intros ?%Exists_nil.
  - rewrite Exists_cons.
    destruct (groupRule_outcome el grouped rule)
      as [[Hnil ->]|[[Hthrow ->]|(Hne & Hnot & grouped' & -> & _)]].
    + rewrite IH. split; [tauto|]. intros [[? _]|?]; [done|tauto].
    + simpl. tauto.
    + rewrite IH. tauto.
Qed.

(** The group of a name after the reduction: the blocks of the rules that
    contribute to it, in the order of the rule list. *)
Lemma groupRules_lookup el grouped rules grouped' name :
  (groupRules el grouped rules 0).1 = Normal grouped' →
  grouped' !! name =
  match style <$> filter (contributes el name) rules with
  | [] => grouped !! name
  | added => Some (default [] (grouped !! name) ++ added)
  end.
Proof.
  revert grouped. induction rules as [|rule rules IH]; intros grouped; simpl.
  - by intros [= ->].
  - destruct (groupRule_outcome el grouped rule)
      as [[Hnil ->]|[[Hthrow ->]|(Hne & Hnot & grouped1 & -> & Hlook)]].
    + intros H%IH. rewrite H, filter_cons, decide_False; [done|].
      intros [Hin _]. rewrite Hnil in Hin. by apply elem_of_nil in Hin.
    + done.
    + intros H%IH. rewrite H, Hlook, filter_cons.
      destruct (decide (contributes el name rule)); [|done].
      rewrite fmap_cons. destruct (style <$> filter _ rules); simpl; [done|].
      by rewrite <- app_assoc.
Qed.

Lemma insert_keys_lookup {V} (g : string → V) (keys : list string)
    (acc : gmap string V) (name : string) :
  foldl (λ acc name, <[name := g name]> acc) acc keys !! name =
  if decide (name ∈ keys) then Some (g name) else acc !! name.
Proof.
  revert acc. induction keys as [|k keys IH]; intros acc; cbn [foldl].
  - rewrite decide_False; [done|]. by intros ?%elem_of_nil.
  - rewrite IH. destruct (decide (name ∈ keys)).
    + rewrite decide_True; [done|]. by right.
    + destruct (decide (name = k)) as [->|Hne].
      * rewrite decide_True by (by left). by rewrite lookup_insert_eq.
      * rewrite lookup_insert_ne by done.
        rewrite decide_False; [done|]. by intros [?|?]%elem_of_cons.
Qed.

(** The two outcomes of a call that does not throw. *)
Lemma getPseudoElementStyles_eq el rules :
  getPseudoElementStyles el rules 0 =
  match (groupRules el ∅ rules 0).1 with
  | Normal grouped =>
      (Normal (if decide (grouped = ∅) then None
               else Some (getAppliedPropertiesForStyles <$> grouped)), 0)
  | Throw => (Throw, 0)
  end.
Proof.
  unfold getPseudoElementStyles. pose proof (groupRules_rewinds el ∅ rules) as H0.
  destruct (groupRules el ∅ rules 0) as [[grouped|] lastIndex']; simpl in *; subst;
    [|done].
  rewrite length_fmap, length_map_to_list.
  destruct (decide (grouped = ∅)) as [->|Hne].
  - by rewrite map_size_empty.
  - rewrite bool_decide_eq_false_2 by (by rewrite map_size_empty_iff).
    do 3 f_equal. apply map_eq. intros name.
    rewrite (insert_keys_lookup (λ name, getAppliedPropertiesForStyles (grouped !!! name))).
    rewrite lookup_fmap, lookup_empty.
    destruct (grouped !! name) as [blocks|] eqn:Hlook; simpl.
    + rewrite decide_True.
      * by rewrite (lookup_total_correct _ _ _ Hlook).
      * apply list_elem_of_fmap. exists (name, blocks). split; [done|].
        by apply elem_of_map_to_list.
    + rewrite decide_False; [done|].
      intros ([k blocks] & -> & Hin%elem_of_map_to_list)%list_elem_of_fmap.
      simpl in Hlook. congruence.
Qed.

Lemma grouped_is_Some el rules grouped name :
  (groupRules el ∅ rules 0).1 = Normal grouped →
  is_Some (grouped !! name) ↔ ∃ rule, rule ∈ rules ∧ contributes el name rule.
Proof.
  intros H. rewrite (groupRules_lookup _ _ _ _ name H), lookup_empty.
  destruct (filter (contributes el name) rules) as [|rule kept] eqn:Hf; simpl.
  - split; [by intros [? ?]|]. intros (rule & Hin & Hc).
    assert (rule ∈ filter (contributes el name) rules) as Hin'
      by (by apply list_elem_of_filter).
    rewrite Hf in Hin'. by apply elem_of_nil in Hin'.
  - split; [|by eauto]. intros _. exists rule.
    assert (rule ∈ filter (contributes el name) rules) as Hin
      by (rewrite Hf; by left).
    apply list_elem_of_filter in Hin. tauto.
Qed.

Lemma grouped_empty_iff el rules grouped :
  (groupRules el ∅ rules 0).1 = Normal grouped →
  grouped = ∅ ↔ ∀ rule name, rule ∈ rules → ¬ contributes el name rule.
Proof.
  intros Hg. split.
  - intros -> rule name Hin Hc.
    assert (is_Some ((∅ : gmap string (list CSSStyleDeclaration)) !! name)) as [? Hl]
      by (apply (grouped_is_Some _ _ _ _ Hg); eauto).
    by rewrite lookup_empty in Hl.
  - intros Hnone. apply map_empty. intros name. apply eq_None_not_Some.
    intros (rule & Hin & Hc)%(grouped_is_Some _ _ _ _ Hg). by apply (Hnone rule name).
Qed.

(** C7: a call that returns returns null exactly when no rule adds its
    block to the group of any name, the element matching no stripped selector
    of a rule that names a pseudo-element; a mapping that is returned is not
    empty, and a name is present in it exactly when some rule names it and has
    a stripped selector the element matches.  The call throws, and returns
    nothing, exactly when [el.matches] throws on a rule that names a
    pseudo-element. *)
Theorem pseudo_styles_absent_iff_no_contribution el rules :
  ((getPseudoElementStyles el rules 0).1 ≠ Throw →
     ((getPseudoElementStyles el rules 0).1 = Normal None ↔
        ∀ rule name, rule ∈ rules → ¬ contributes el name rule))
  ∧ ((getPseudoElementStyles el rules 0).1 = Normal None ↔
       Forall (λ rule, pseudoNames (selectorText rule) = []
                       ∨ el_matches el (strippedSelector (selectorText rule)) = Normal false)
         rules)
  ∧ (∀ result, (getPseudoElementStyles el rules 0).1 = Normal (Some result) →
       result ≠ ∅
       ∧ ∀ name, is_Some (result !! name) ↔
           ∃ rule, rule ∈ rules ∧ contributes el name rule)
  ∧ ((getPseudoElementStyles el rules 0).1 = Throw ↔ Exists (throwsOn el) rules).
Proof.
  rewrite getPseudoElementStyles_eq.
  pose proof (groupRules_throws el ∅ rules) as Hthrows.
  pose proof (grouped_is_Some el rules) as Hsome.
  pose proof (grouped_empty_iff el rules) as Hempty.
  destruct (groupRules el ∅ rules 0).1 as [grouped|]; simpl; split_and!.
  - intros _. rewrite <- (Hempty grouped eq_refl).
    destruct (decide (grouped = ∅)); split; done.
  - specialize (Hsome grouped). rewrite Forall_forall. split.
    + intros Hnone rule Hin. destruct (decide (grouped = ∅)) as [->|]; [|done].
      destruct (pseudoNames (selectorText rule)) as [|name names] eqn:Hnames; [by left|].
      right. destruct (el_matches el _) as [[|]|] eqn:Hm; [|done|].
      * exfalso. apply (proj1 (Hempty ∅ eq_refl) eq_refl rule name Hin).
        split; [|done]. rewrite Hnames. by left.
      * assert (Exists (throwsOn el) rules) as Hex; [|by apply Hthrows in Hex].
        apply Exists_exists. exists rule. split; [done|]. split; [by rewrite Hnames|done].
    + intros Hall. rewrite decide_True; [done|]. apply (Hempty grouped eq_refl).
      intros rule name Hin [Hnamed Hm].
      destruct (Hall rule Hin) as [Hnil|Hfalse].
      * rewrite Hnil in Hnamed. by apply elem_of_nil in Hnamed.
      * by rewrite Hm in Hfalse.
  - intros result Hres. destruct (decide (grouped = ∅)) as [|Hne]; [done|].
    injection Hres as <-. split.
    + by rewrite fmap_empty_iff.
    + intros name. rewrite lookup_fmap, fmap_is_Some. by apply Hsome.
  - split; [done|]. by intros ?%Hthrows.
  - done.
  - split; [done|]. intros Hall. pose proof (proj1 Hthrows eq_refl) as Hnot.
    apply Exists_exists in Hnot as (rule & Hin & Hne & Hm).
    rewrite Forall_forall in Hall. destruct (Hall rule Hin) as [?|Hfalse]; [done|].
    by rewrite Hm in Hfalse.
  - by intros result.
  - split; [intros _; by apply Hthrows|done].
Qed.

Lemma getPseudoElementStyles_rewinds el rules :
  (getPseudoElementStyles el rules 0).2 = 0.
Proof. rewrite getPseudoElementStyles_eq. by destruct (groupRules _ _ _ _).1. Qed.

Lemma invoke_rewinds c : (Api.invoke c 0).2 = 0.
Proof.
  destruct c as [el rules|el rules]; simpl; [done|].
  pose proof (getPseudoElementStyles_rewinds el rules).
  by destruct (getPseudoElementStyles el rules 0).
Qed.

Lemma after_loaded history : Api.after history = 0.
Proof.
  unfold Api.after, Api.loaded.
  induction history as [|c history IH] using rev_ind; [done|].
  by rewrite foldl_app, IH; simpl; rewrite invoke_rewinds.
Qed.

(** C9: whatever calls came before, the pattern object is rewound when a
    call starts and when it ends, so a call repeated at once with the same
    arguments gives the same answer (a mapping, null or a throw), and the
    answer is the one a freshly loaded module gives. *)
Theorem successive_calls_agree history c :
  Api.after history = Api.loaded
  ∧ (Api.invoke c (Api.after history)).2 = Api.loaded
  ∧ (Api.invoke c (Api.invoke c (Api.after history)).2).1
    = (Api.invoke c (Api.after history)).1
  ∧ (Api.invoke c (Api.after history)).1 = (Api.invoke c Api.loaded).1.
Proof.
  rewrite after_loaded. unfold Api.loaded. by rewrite !invoke_rewinds.
Qed.

(** The position of the pattern object is read by a call: started from a
    stale position the scan would miss an occurrence. *)
Example stale_position_would_show :
  pseudoResolved
    (getPseudoElementStyles (elementMatching [] [])
       [styleRule "::before" [decl "content" "x"]] 3).1 "::before" "content"
  = Normal None
  ∧ pseudoResolved
      (getPseudoElementStyles (elementMatching [] [])
         [styleRule "::before" [decl "content" "x"]] 0).1 "::before" "content"
    = Normal (Some (Some "x")).
Proof. split; by vm_compute. Qed.

(** * Facts about the occurrences of the pattern *)

Lemma skip_skip a b s : RegExp.skip a (RegExp.skip b s) = RegExp.skip (b + a) s.
Proof.
  revert s. induction b as [|b IH]; intros s; simpl; [done|].
  destruct s as [|c s]; [by destruct a|]. apply IH.
Qed.

Lemma substring_skip i n s : substring i n s = substring 0 n (RegExp.skip i s).
Proof.
  revert s. induction i as [|i IH]; intros s; [done|].
  destruct s as [|c s]; simpl; [by destruct n|]. apply IH.
Qed.

Lemma startsWith_upper literal subject :
  RegExp.startsWith literal subject = true →
  upper (substring 0 (String.length literal) subject) = upper literal.
Proof.
  revert subject. induction literal as [|a literal IH]; intros [|b subject]; simpl;
    try done.
  intros [Hc H]%andb_prop. apply bool_decide_eq_true in Hc.
  by rewrite Hc, (IH _ H).
Qed.

Lemma matchGroup_alternative subject n :
  RegExp.matchGroup subject = Some n →
  ∃ alt, alt ∈ RegExp.alternatives ∧ String.length alt = n
         ∧ RegExp.startsWith alt subject = true.
Proof.
  unfold RegExp.matchGroup. intros (alt & Hfind & ->)%fmap_Some.
  apply find_Some_elem in Hfind as [? ?]. eauto.
Qed.

Lemma matchHere_group subject colons n :
  RegExp.matchHere subject = Some (colons, n) →
  RegExp.matchGroup (RegExp.skip colons subject) = Some n.
Proof.
  unfold RegExp.matchHere. intros H.
  repeat (case_match; simplify_eq/=; try done);
    repeat match goal with
           | H : _ <$> RegExp.matchGroup _ = Some _ |- _ =>
               apply fmap_Some in H as (? & H & [= -> ->])
           end; done.
Qed.

Lemma search_matchHere subject index i colons n :
  RegExp.search subject index = Some (i, colons, n) →
  index ≤ i ∧ RegExp.matchHere (RegExp.skip (i - index) subject) = Some (colons, n).
Proof.
  revert index. induction subject as [|c subject IH]; intros index; [done|].
  rewrite search_cons.
  destruct (RegExp.matchHere (String c subject)) as [[??]|] eqn:Hm.
  - intros ?; simplify_eq. by rewrite Nat.sub_diag.
  - intros [Hle H]%IH. split; [lia|].
    by replace (i - index) with (S (i - S index)) by lia.
Qed.

(** An occurrence captures, as written in the string, a run of letters that
    is one of the names when letter case is set aside. *)
Lemma exec_group lastIndex str m lastIndex' :
  RegExp.exec lastIndex str = (Some m, lastIndex') →
  ∃ alt start, alt ∈ RegExp.alternatives
    ∧ start + String.length alt = lastIndex'
    ∧ RegExp.group1 m = RegExp.slice str start lastIndex'
    ∧ upper (RegExp.group1 m) = upper alt.
Proof.
  unfold RegExp.exec. case_bool_decide; [done|].
  destruct (RegExp.search _ _) as [[[i colons] n]|] eqn:Hs; [|done].
  intros ?; simplify_eq. simpl.
  apply search_matchHere in Hs as [Hle Hm].
  rewrite skip_skip in Hm. replace (lastIndex + (i - lastIndex)) with i in Hm by lia.
  apply matchHere_group in Hm. rewrite skip_skip in Hm.
  apply matchGroup_alternative in Hm as (alt & Halt & <- & Hstarts).
  exists alt, (i + colons). split_and!; [done..|].
  unfold RegExp.slice.
  replace (i + colons + String.length alt - (i + colons)) with (String.length alt) by lia.
  rewrite substring_skip. by apply startsWith_upper.
Qed.

Lemma substring_length i n s :
  i + n ≤ String.length s → String.length (substring i n s) = n.
Proof.
  revert i n. induction s as [|c s IH]; intros [|i] [|n]; simpl; try lia.
  - intros H. rewrite IH; lia.
  - intros H. apply (IH i 0). lia.
  - intros H. apply IH. lia.
Qed.

Lemma search_leftmost subject index i colons n :
  RegExp.search subject index = Some (i, colons, n) →
  ∀ j, index ≤ j < i → RegExp.matchHere (RegExp.skip (j - index) subject) = None.
Proof.
  revert index. induction subject as [|c subject IH]; intros index; [done|].
  rewrite search_cons.
  destruct (RegExp.matchHere (String c subject)) as [[??]|] eqn:Hm.
  - intros ?; simplify_eq. lia.
  - intros Hs j Hj. destruct (decide (j = index)) as [->|Hne].
    + by rewrite Nat.sub_diag.
    + replace (j - index) with (S (j - S index)) by lia. apply (IH _ Hs). lia.
Qed.

(** An occurrence is the leftmost one at or after [lastIndex]; it spans
    [match[0]], and [lastIndex] moves to its end. *)
Lemma exec_span lastIndex str m lastIndex' :
  RegExp.exec lastIndex str = (Some m, lastIndex') →
  lastIndex ≤ RegExp.index m
  ∧ lastIndex' = RegExp.index m + String.length (RegExp.whole m)
  ∧ RegExp.whole m = RegExp.slice str (RegExp.index m) lastIndex'
  ∧ RegExp.matchHere (RegExp.skip (RegExp.index m) str)
    = Some (String.length (RegExp.whole m) - String.length (RegExp.group1 m),
            String.length (RegExp.group1 m))
  ∧ ∀ j, lastIndex ≤ j < RegExp.index m → RegExp.matchHere (RegExp.skip j str) = None.
Proof.
  unfold RegExp.exec. case_bool_decide; [done|].
  destruct (RegExp.search _ _) as [[[i colons] n]|] eqn:Hs; [|done].
  intros ?; simplify_eq. simpl.
  pose proof (search_bounds _ _ _ _ _ Hs) as (Hle & Hcolons & Hend).
  pose proof (search_matchHere _ _ _ _ _ Hs) as [_ Hm].
  pose proof (search_leftmost _ _ _ _ _ Hs) as Hleft.
  rewrite skip_length in Hend. rewrite skip_skip in Hm.
  replace (lastIndex + (i - lastIndex)) with i in Hm by lia.
  unfold RegExp.slice. rewrite !substring_length by lia.
  split_and!; [done|lia|done| |].
  - rewrite Hm. do 2 f_equal; lia.
  - intros j Hj. specialize (Hleft j Hj). rewrite skip_skip in Hleft.
    by replace (lastIndex + (j - lastIndex)) with j in Hleft by lia.
Qed.

Lemma execAll_exec selectorText lastIndex m :
  m ∈ execAll selectorText lastIndex →
  ∃ from to, RegExp.exec from selectorText = (Some m, to).
Proof.
  remember (S (String.length selectorText) - lastIndex) as k eqn:Hk.
  revert lastIndex Hk. induction k as [k IH] using lt_wf_ind. intros lastIndex ->.
  rewrite execAll_step.
  destruct (RegExp.exec lastIndex selectorText) as [[m'|] lastIndex'] eqn:Hexec.
  - intros [->|Hin]%elem_of_cons; [eauto|].
    pose proof (exec_progress _ _ _ _ Hexec).
    eapply (IH (S (String.length selectorText) - lastIndex')); [lia|done|done].
  - by intros ?%elem_of_nil.
Qed.

(** C10: a key of the returned mapping is "::" followed by a run of letters
    taken from a selector as it is written there, which is one of the
    pseudo-element names when letter case is set aside; so ::BEFORE and
    ::before, matched alike, give two entries. *)
Theorem grouping_key_keeps_letter_case :
  (∀ el rules result name,
     (getPseudoElementStyles el rules 0).1 = Normal (Some result) →
     is_Some (result !! name) →
     ∃ rule alt start stop,
       rule ∈ rules ∧ alt ∈ RegExp.alternatives
       ∧ name = "::" +:+ RegExp.slice (selectorText rule) start stop
       ∧ upper (RegExp.slice (selectorText rule) start stop) = upper alt)
  ∧ match (getPseudoElementStyles (elementMatching [] ["div"])
             [styleRule "div::BEFORE" [decl "content" "x"];
              styleRule "div::before" [decl "color" "red"]] 0).1 with
    | Normal (Some result) =>
        size result = 2
        ∧ pseudoProperty result "::BEFORE" "content" = Some "x"
        ∧ pseudoProperty result "::BEFORE" "color" = None
        ∧ pseudoProperty result "::before" "color" = Some "red"
        ∧ pseudoProperty result "::before" "content" = None
    | _ => False
    end.
Proof.
  split.
  - intros el rules result name Hres Hsome.
    rewrite getPseudoElementStyles_eq in Hres.
    destruct (groupRules el ∅ rules 0).1 as [grouped|] eqn:Hg; [|done]. simpl in Hres.
    destruct (decide (grouped = ∅)); [done|]. injection Hres as <-.
    rewrite lookup_fmap, fmap_is_Some in Hsome.
    apply (grouped_is_Some el rules grouped name Hg) in Hsome
      as (rule & Hin & Hnamed & _).
    unfold pseudoNames in Hnamed.
    apply list_elem_of_fmap in Hnamed as (m & -> & Hm).
    apply execAll_exec in Hm as (from & to & Hexec).
    apply exec_group in Hexec as (alt & start & Halt & _ & Hg1 & Hup).
    exists rule, alt, start, to. unfold pseudoName. rewrite <- Hg1. by split_and!.
  - vm_compute. by split_and!.
Qed.

(** * The samples, run *)

Example sample_collected :
  selectorText <$> collectedRules sampleDocument = [".wide"; "a"; "div"; "p"; "em"].
Proof. by vm_compute. Qed.

Example sample_sorted :
  selectorText <$> getDocumentStyleRules byLength sampleDocument
  = [".wide"; "div"; "em"; "a"; "p"].
Proof. by vm_compute. Qed.

(** The order of the sample document under the length comparator, which is
    consistent. *)
Lemma sorted_sample :
  (∀ a b, (byLength a b ≤ 0 ↔ 0 ≤ byLength b a)%Z)
  ∧ (∀ a b c, (byLength a b ≤ 0 → byLength b c ≤ 0 → byLength a c ≤ 0)%Z)
  ∧ getDocumentStyleRules byLength sampleDocument ≡ₚ collectedRules sampleDocument
  ∧ (∀ i j a b,
       getDocumentStyleRules byLength sampleDocument !! i = Some a →
       getDocumentStyleRules byLength sampleDocument !! j = Some b →
       (0 < byLength (selectorText a) (selectorText b))%Z →
       i < j)
  ∧ (∀ s,
       filter (λ r, byLength (selectorText r) s = 0%Z)
         (getDocumentStyleRules byLength sampleDocument)
       = filter (λ r, byLength (selectorText r) s = 0%Z) (collectedRules sampleDocument))
  ∧ collectedRules sampleDocument =
    concat ((λ sheet, rev (declarationOrder sheet (defaultView sampleDocument)))
              <$> styleSheets sampleDocument).
Proof.
  assert (∀ a b, (byLength a b ≤ 0 ↔ 0 ≤ byLength b a)%Z) as Hflip
    by (unfold byLength; intros; lia).
  assert (∀ a b c, (byLength a b ≤ 0 → byLength b c ≤ 0 → byLength a c ≤ 0)%Z) as Htrans
    by (unfold byLength; intros; lia).
  split; [exact Hflip|]. split; [exact Htrans|].
  exact (sorted_by_descending_specificity byLength Hflip Htrans sampleDocument).
Defined.

Example scan_single :
  scanSelector "div::before" 0 "div::before" None = ("div", Some ["::before"], 0).
Proof. by vm_compute. Qed.

Example scan_keeps_earlier_occurrence :
  scanSelector "a::before, b:AFTER" 0 "a::before, b:AFTER" None
  = ("a::before, b", Some ["::before"; "::AFTER"], 0).
Proof. by vm_compute. Qed.

Example scan_repeated_name :
  scanSelector "a::before, b::before" 0 "a::before, b::before" None
  = ("a::before, b", Some ["::before"], 0).
Proof. by vm_compute. Qed.

Example stripped_pure_pseudo : strippedSelector "::before" = "*".
Proof. by vm_compute. Qed.

(** An element that matches "a::before, b" and not "a, b": the rule for
    "a::before, b:AFTER" reaches it, under both names. *)
Example only_last_occurrence_is_dropped :
  match (groupRule (elementMatching [] ["a::before, b"]) ∅
           (styleRule "a::before, b:AFTER" [decl "content" "x"]) 0).1 with
  | Normal grouped =>
      size grouped = 2
      ∧ grouped !! "::before" = Some [[decl "content" "x"]]
      ∧ grouped !! "::AFTER" = Some [[decl "content" "x"]]
  | Throw => False
  end
  ∧ match (groupRule (elementMatching [] ["a, b"]) ∅
             (styleRule "a::before, b:AFTER" [decl "content" "x"]) 0).1 with
    | Normal grouped => size grouped = 0
    | Throw => False
    end.
Proof. split; vm_compute; by split_and?. Qed.

(** A custom property is stored as the text "undefined", whatever its
    declaration says; a property of the host next to it is not affected. *)
Example custom_property_reads_undefined :
  property (getAppliedPropertiesForStyles [[decl "--gap" "4px"]]) "--gap"
  = Some "undefined"
  ∧ property (getAppliedPropertiesForStyles [[decl_important "--gap" "4px"]]) "--gap"
    = Some "undefined !important"
  ∧ property (getAppliedPropertiesForStyles [[decl "--gap" "4px"; decl "gap" "4px"]]) "gap"
    = Some "4px"
  ∧ resolved (getElementStyles (elementMatching [decl "--gap" "4px"] []) []) "--gap"
    = Normal (Some "undefined").
Proof. split_and!; by vm_compute. Qed.

Example pseudo_grouping :
  pseudoResolved
    (getPseudoElementStyles (elementMatching [] ["div"])
       [styleRule "div::before" [decl "content" "x"];
        styleRule "span::before" [decl "content" "y"]] 0).1 "::before" "content"
  = Normal (Some (Some "x")).
Proof. by vm_compute. Qed.

Example pseudo_absent :
  (getPseudoElementStyles (elementMatching [] ["div"])
     [styleRule "div" [decl "color" "red"]; styleRule "span::before" [decl "content" "y"]]
     0).1
  = Normal None.
Proof. by vm_compute. Qed.

(** The groups of the sample document: the print query and the flex
    condition fail, the font-face rule is of another kind, the screen query
    holds. *)
Lemma gated_sample :
  getStyleRulesFromRule sampleWindow
    (mediaRule "print" [styleRule "#main .x" [decl "color" "black"]]) = []
  ∧ getStyleRulesFromRule sampleWindow
      (supportsRule "(display: flex)" [styleRule "ul" [decl "display" "flex"]]) = []
  ∧ getStyleRulesFromRule sampleWindow (fontFaceRule [decl "font-family" "Sample"]) = []
  ∧ getStyleRulesFromRule sampleWindow
      (mediaRule "screen" [styleRule "a" [decl "color" "blue"];
                           styleRule ".wide" [decl "width" "100%"]])
    = getStyleRulesFromSheet [styleRule "a" [decl "color" "blue"];
                              styleRule ".wide" [decl "width" "100%"]] sampleWindow.
Proof.
  destruct (collected_rules_are_style_rules sampleWindow)
    as (_ & Hmedia & Hsupports & Hother & _ & Hgroup).
  split_and!.
  - by apply Hmedia.
  - by apply Hsupports.
  - by apply Hother.
  - by apply Hgroup.
Defined.

(** An element matching "div" gets an entry for ::before from div::before
    and none for ::after from span::after. *)
Lemma pseudo_sample :
  ∃ result,
    (getPseudoElementStyles (elementMatching [] ["div"])
       [styleRule "div::before" [decl "content" "x"];
        styleRule "span::after" [decl "content" "y"]] 0).1 = Normal (Some result)
    ∧ result ≠ ∅
    ∧ is_Some (result !! "::before")
    ∧ ¬ is_Some (result !! "::after").
Proof.
  set (el := elementMatching [] ["div"]).
  set (before := styleRule "div::before" [decl "content" "x"]).
  set (after := styleRule "span::after" [decl "content" "y"]).
  destruct (pseudo_styles_absent_iff_no_contribution el [before; after])
    as (_ & Hnull & Hmap & Hthrow).
  destruct (getPseudoElementStyles el [before; after] 0).1 as [[result|]|].
  - exists result. destruct (Hmap result eq_refl) as [Hne Hkeys].
    split_and!; [done|done| |].
    + apply Hkeys. exists before. split; [by left|].
      split; [vm_compute; by left|by vm_compute].
    + intros (rule & Hin & Hnamed & Hm)%Hkeys.
      apply elem_of_cons in Hin as [->|Hin].
      * vm_compute in Hnamed. apply list_elem_of_singleton in Hnamed. discriminate.
      * apply list_elem_of_singleton in Hin as ->. vm_compute in Hm. discriminate.
  - exfalso. pose proof (proj1 Hnull eq_refl) as Hall.
    apply Forall_cons in Hall as [[Hnil|Hfalse] _].
    + vm_compute in Hnil. discriminate.
    + vm_compute in Hfalse. discriminate.
  - exfalso. pose proof (proj1 Hthrow eq_refl) as Hex.
    apply Exists_cons in Hex as [[_ Hm]|Hex].
    + vm_compute in Hm. discriminate.
    + apply Exists_cons in Hex as [[_ Hm]|Hex].
      * vm_compute in Hm. discriminate.
      * by apply Exists_nil in Hex.
Defined.

(** The key ::BEFORE of the sample is cut out of a selector of the list. *)
Lemma letter_case_sample :
  ∃ rule alt start stop,
    rule ∈ [styleRule "div::BEFORE" [decl "content" "x"];
            styleRule "div::before" [decl "color" "red"]]
    ∧ alt ∈ RegExp.alternatives
    ∧ "::BEFORE" = "::" +:+ RegExp.slice (selectorText rule) start stop
    ∧ upper (RegExp.slice (selectorText rule) start stop) = upper alt.
Proof.
  destruct grouping_key_keeps_letter_case as [Hkeys Hsample].
  destruct (getPseudoElementStyles (elementMatching [] ["div"])
              [styleRule "div::BEFORE" [decl "content" "x"];
               styleRule "div::before" [decl "color" "red"]] 0).1
    as [[result|]|] eqn:Hres; [|destruct Hsample..].
  apply (Hkeys _ _ result "::BEFORE" Hres).
  destruct Hsample as (_ & Hcontent & _). unfold pseudoProperty in Hcontent.
  by destruct (result !! "::BEFORE").
Defined.

Example nothing_to_resolve :
  getElementStyles (elementMatching [] ["div"]) [styleRule "span" [decl "color" "red"]]
  = Normal None.
Proof. by vm_compute. Qed.

Example matching_throws :
  getElementStyles (mkElement [] (λ _, Throw)) [styleRule "div" [decl "color" "red"]]
  = Throw
  ∧ (getPseudoElementStyles (mkElement [] (λ _, Throw))
       [styleRule "div" [decl "color" "red"]] 0).1 = Normal None
  ∧ getPseudoElementStyles (mkElement [] (λ _, Throw))
      [styleRule "div::before" [decl "color" "red"]] 0 = (Throw, 0).
Proof. split_and!; by vm_compute. Qed.

(** * Further properties of the resolver *)


Lemma find_ext {A} (f g : A → bool) (l : list A) :
  (∀ x, f x = g x) → List.find f l = List.find g l.
Proof. intros H. induction l as [|x l IH]; simpl; [done|]. by rewrite H, IH. Qed.

Lemma find_read_names (keep : Resolver.entry → bool) style name (names : list string) :
  List.find (λ e, named name e && keep e) (Resolver.readEntry style <$> names) =
  if bool_decide (name ∈ names) && keep (Resolver.readEntry style name)
  then Some (Resolver.readEntry style name) else None.
Proof.
  induction names as [|n names IH]; [done|]. rewrite fmap_cons. cbn [List.find].
  unfold named at 1. cbn [Resolver.e_name Resolver.readEntry].
  destruct (decide (n = name)) as [->|Hne].
  - rewrite !bool_decide_eq_true_2 by (done || by left). simpl.
    rewrite IH. destruct (keep _); [done|]. by rewrite andb_false_r.
  - rewrite bool_decide_eq_false_2 by done. simpl. rewrite IH.
    destruct (decide (name ∈ names)).
    + rewrite !bool_decide_eq_true_2; [done| |done]. by right.
    + rewrite !bool_decide_eq_false_2; [done| |done].
      intros [?|?]%elem_of_cons; congruence.
Qed.

Lemma find_important_entriesOf style name :
  List.find (λ e, named name e && Resolver.e_important e) (entriesOf style) =
  if declaresImportant name style then Some (Resolver.readEntry style name) else None.
Proof. apply find_read_names. Qed.

Lemma find_named_entriesOf style name :
  List.find (named name) (entriesOf style) =
  if declares name style then Some (Resolver.readEntry style name) else None.
Proof.
  rewrite (find_ext _ (λ e, named name e && true)) by (intros; by rewrite andb_true_r).
  unfold entriesOf. rewrite (find_read_names (λ _, true)). by rewrite andb_true_r.
Qed.




(** X2: the resolved map has an entry for a property exactly when some
    block of the sequence declares it: no declared property is lost and none
    is made up. *)
Theorem resolved_names_are_declared_names styles name :
  is_Some (property (getAppliedPropertiesForStyles styles) name) ↔
  ∃ style d, style ∈ styles ∧ d ∈ style ∧ d_name d = name.
Proof.
  rewrite resolved_is_winner, fmap_is_Some. split.
  - intros [e He]. destruct (winner_declared _ _ _ He) as (style & d & ? & ? & ? & _).
    eauto.
  - intros (style & d & Hstyle & Hd & Hname).
    destruct (winner (entries styles) name) as [e|] eqn:Hw; [eauto|]. exfalso.
    unfold winner in Hw.
    destruct (List.find (λ e, named name e && Resolver.e_important e) _); [done|].
    rewrite find_None_iff in Hw.
    specialize (Hw (Resolver.readEntry style (d_name d))).
    unfold named in Hw. simpl in Hw. rewrite bool_decide_eq_true_2 in Hw by done.
    assert (false = true) by (symmetry; apply Hw, entries_elem; eauto). done.
Qed.

Lemma entries_app styles more : entries (styles ++ more) = entries styles ++ entries more.
Proof. unfold entries. apply bind_app. Qed.

Lemma important_entry_found styles name :
  Exists (λ style, declaresImportant name style = true) styles →
  is_Some (List.find (λ e, named name e && Resolver.e_important e) (entries styles)).
Proof.
  intros (style & Hin & Hi)%Exists_exists.
  destruct (List.find _ (entries styles)) as [e|] eqn:Hf; [eauto|]. exfalso.
  rewrite find_None_iff in Hf.
  apply andb_prop in Hi as [Hd Hp]. apply bool_decide_eq_true in Hd.
  apply list_elem_of_fmap in Hd as (d & -> & Hd).
  specialize (Hf (Resolver.readEntry style (d_name d))). unfold named in Hf.
  simpl in Hf. rewrite bool_decide_eq_true_2, Hp in Hf by done.
  assert (true = false) by (apply Hf, entries_elem; eauto). done.
Qed.

Lemma no_important_entry styles name :
  Forall (λ style, declaresImportant name style = false) styles →
  List.find (λ e, named name e && Resolver.e_important e) (entries styles) = None.
Proof.
  intros Hall. apply find_None_iff.
  intros e (style & d & Hin & Hd & ->)%entries_elem.
  rewrite Forall_forall in Hall. specialize (Hall style Hin).
  unfold named. simpl. destruct (decide (d_name d = name)) as [<-|Hne].
  - rewrite bool_decide_eq_true_2 by done. simpl.
    unfold declaresImportant, declares in Hall.
    rewrite bool_decide_eq_true_2 in Hall; [done|]. apply list_elem_of_fmap. eauto.
  - by rewrite bool_decide_eq_false_2.
Qed.

(** X3: blocks of lower priority added to a sequence leave a property as it
    was resolved when a block of the sequence declares it important, and
    also when the property was resolved and none of the added blocks declares
    it important. *)
Theorem lower_blocks_leave_settled_properties styles more name :
  Exists (λ style, declaresImportant name style = true) styles
  ∨ (is_Some (property (getAppliedPropertiesForStyles styles) name)
     ∧ Forall (λ style, declaresImportant name style = false) more) →
  property (getAppliedPropertiesForStyles (styles ++ more)) name
  = property (getAppliedPropertiesForStyles styles) name.
Proof.
  rewrite !resolved_is_winner, entries_app, winner_app. unfold winner.
  intros [[e He]%important_entry_found|[Hsome Hnone%no_important_entry]].
  - by rewrite He.
  - rewrite Hnone. rewrite fmap_is_Some in Hsome.
    destruct (List.find (λ e, named name e && Resolver.e_important e) (entries styles));
      [done|].
    destruct (List.find (named name) (entries styles)); [done|]. by destruct Hsome.
Qed.

(** A sequence where a later block has won color from an earlier plain one,
    and a further block that tries again. *)
Lemma settled_sample :
  property (getAppliedPropertiesForStyles
              ([[decl "color" "red"]; [decl_important "color" "blue"]]
               ++ [[decl_important "color" "green"; decl "margin" "0"]])) "color"
  = property (getAppliedPropertiesForStyles
                [[decl "color" "red"]; [decl_important "color" "blue"]]) "color".
Proof.
  apply lower_blocks_leave_settled_properties. left.
  apply Exists_cons. right. apply Exists_cons. left. reflexivity.
Defined.

Lemma find_repeat {A} (f : A → bool) (a s b c : list A) :
  List.find f (a ++ s ++ b ++ s ++ c) = List.find f (a ++ s ++ b ++ c).
Proof.
  rewrite !find_app_or.
  by destruct (List.find f a), (List.find f s), (List.find f b).
Qed.

Lemma resolved_ext (r1 r2 : option (gmap string string)) :
  (r1 = None ↔ r2 = None) → (∀ name, property r1 name = property r2 name) → r1 = r2.
Proof.
  destruct r1 as [m1|], r2 as [m2|]; simpl; intros Hnone Hlook.
  - f_equal. apply map_eq. exact Hlook.
  - by destruct (proj2 Hnone eq_refl).
  - by destruct (proj1 Hnone eq_refl).
  - done.
Qed.

Lemma resolver_null_entries styles :
  getAppliedPropertiesForStyles styles = None ↔ entries styles = [].
Proof.
  unfold getAppliedPropertiesForStyles. rewrite run_entries.
  apply (runEntries_inv (entries styles)).
Qed.

(** X4: a block that stands a second time in the sequence, further down, is
    idle there: the resolved map is the one of the sequence without the
    second occurrence. *)
Theorem repeated_block_is_idle before block between after :
  getAppliedPropertiesForStyles (before ++ block :: between ++ block :: after)
  = getAppliedPropertiesForStyles (before ++ block :: between ++ after).
Proof.
  assert (∀ rest, entries (before ++ block :: between ++ rest)
                  = entries before ++ entriesOf block ++ entries between ++ entries rest)
    as Hsplit.
  { intros rest. rewrite entries_app.
    change (block :: between ++ rest) with ([block] ++ between ++ rest).
    rewrite !entries_app. unfold entries at 2. simpl. by rewrite app_nil_r. }
  apply resolved_ext.
  - rewrite !resolver_null_entries, !Hsplit.
    change (entries (block :: after)) with (entriesOf block ++ entries after).
    rewrite !app_nil. tauto.
  - intros name. rewrite !resolved_is_winner, !Hsplit.
    change (entries (block :: after)) with (entriesOf block ++ entries after).
    unfold winner. by rewrite !find_repeat.
Qed.

(** * Further properties of [getElementStyles] *)

Lemma matchingRules_skip el before rule after :
  el_matches el (selectorText rule) = Normal false →
  matchingRules el (before ++ rule :: after) = matchingRules el (before ++ after).
Proof.
  intros Hm. induction before as [|r before IH]; cbn [matchingRules app].
  - rewrite Hm. cbn [mbind completion_bind]. by destruct (matchingRules el after).
  - by rewrite IH.
Qed.

(** X5: a rule whose selector the element does not match has no part in the
    styles of the element: the result is the one of the rule list without
    it, wherever the rule stands and whatever it declares. *)
Theorem unmatched_rule_is_ignored el before rule after :
  el_matches el (selectorText rule) = Normal false →
  getElementStyles el (before ++ rule :: after) = getElementStyles el (before ++ after).
Proof.
  intros Hm. unfold getElementStyles. by rewrite (matchingRules_skip _ _ _ _ Hm).
Qed.

(** An important declaration in a rule for span does not reach a div. *)
Lemma unmatched_sample :
  getElementStyles (elementMatching [decl "color" "red"] ["div"])
    ([styleRule "div" [decl "margin" "0"]]
     ++ styleRule "span" [decl_important "color" "blue"]
     :: [styleRule "div" [decl "color" "green"]])
  = getElementStyles (elementMatching [decl "color" "red"] ["div"])
      ([styleRule "div" [decl "margin" "0"]] ++ [styleRule "div" [decl "color" "green"]]).
Proof. apply unmatched_rule_is_ignored. reflexivity. Defined.

Lemma concat_nil_Forall {A} (ls : list (list A)) :
  concat ls = [] ↔ Forall (λ l, l = []) ls.
Proof.
  induction ls as [|l ls IH]; simpl.
  - split; [constructor|done].
  - by rewrite app_nil, Forall_cons, IH.
Qed.

(** X6: for an element on which [el.matches] does not throw, the styles are
    null exactly when the element has no inline declaration and every rule it
    matches has an empty block; a throw on any rule of the list, matched or
    not, leaves no result. *)
Theorem element_styles_null_iff el rules :
  getElementStyles el rules = Normal None ↔
  Forall (λ rule, el_matches el (selectorText rule) ≠ Throw) rules
  ∧ el_style el = []
  ∧ Forall (λ rule, el_matches el (selectorText rule) = Normal true → style rule = [])
      rules.
Proof.
  unfold getElementStyles. rewrite matchingRules_filter.
  destruct (decide (Forall _ rules)) as [Hok|Hthrow]; cbn [mbind completion_bind].
  - split.
    + intros [= Hnone]. apply resolver_null_entries, entries_nil in Hnone.
      simpl in Hnone. apply app_nil in Hnone as [Hinline Hrules].
      split_and!; [done..|]. apply concat_nil_Forall in Hrules.
      rewrite Forall_fmap in Hrules. rewrite Forall_forall in Hrules |- *.
      intros rule Hin Hm. apply (Hrules rule). by apply list_elem_of_filter.
    + intros (_ & Hinline & Hrules). f_equal.
      apply resolver_null_entries, entries_nil. simpl. rewrite Hinline. simpl.
      apply concat_nil_Forall. rewrite Forall_fmap. rewrite Forall_forall in Hrules |- *.
      intros rule [Hm Hin]%list_elem_of_filter. by apply Hrules.
  - split; [done|]. by intros [? _].
Qed.

(** * Further properties of [getPseudoElementStyles] *)

(** X7: the entry of a pseudo-element name in a returned mapping is what
    the resolver gives for the blocks of the rules that contribute to the
    name, one block for each such rule, in the order of the rule list; a name
    without a contributing rule has no entry.  When null is returned no rule
    contributes to any name, and the call throws only if [el.matches] throws
    on a rule that names a pseudo-element. *)
Theorem pseudo_entry_resolves_contributing_rules el rules :
  match (getPseudoElementStyles el rules 0).1 with
  | Normal (Some result) =>
      ∀ name, result !! name =
        match style <$> filter (contributes el name) rules with
        | [] => None
        | blocks => Some (getAppliedPropertiesForStyles blocks)
        end
  | Normal None => ∀ name, filter (contributes el name) rules = []
  | Throw => Exists (throwsOn el) rules
  end.
Proof.
  rewrite getPseudoElementStyles_eq.
  pose proof (groupRules_lookup el ∅ rules) as Hlook.
  pose proof (groupRules_throws el ∅ rules) as Hthrows.
  destruct (groupRules el ∅ rules 0).1 as [grouped|]; simpl; [|by apply Hthrows].
  destruct (decide (grouped = ∅)) as [->|Hne].
  - intros name. specialize (Hlook ∅ name eq_refl). rewrite lookup_empty in Hlook.
    destruct (filter (contributes el name) rules); [done|]. by simpl in Hlook.
  - intros name. rewrite lookup_fmap, (Hlook grouped name eq_refl), lookup_empty.
    by destruct (style <$> filter (contributes el name) rules).
Qed.

(** Two rules for the ::before of a div, and one for the one of a span. *)
Lemma pseudo_entry_sample :
  ∃ result,
    (getPseudoElementStyles (elementMatching [] ["div"; ".x"])
       [styleRule "div::before" [decl "content" "a"];
        styleRule "span::before" [decl_important "content" "b"];
        styleRule ".x:before" [decl "content" "c"; decl "color" "red"]] 0).1
    = Normal (Some result)
    ∧ result !! "::before"
      = Some (getAppliedPropertiesForStyles
                [[decl "content" "a"]; [decl "content" "c"; decl "color" "red"]])
    ∧ result !! "::after" = None.
Proof.
  pose proof (pseudo_entry_resolves_contributing_rules
                (elementMatching [] ["div"; ".x"])
                [styleRule "div::before" [decl "content" "a"];
                 styleRule "span::before" [decl_important "content" "b"];
                 styleRule ".x:before" [decl "content" "c"; decl "color" "red"]]) as H.
  destruct (getPseudoElementStyles _ _ 0).1 as [[result|]|].
  - exists result. split; [done|]. split.
    + by rewrite (H "::before").
    + by rewrite (H "::after").
  - specialize (H "::before"). vm_compute in H. discriminate.
  - exfalso. repeat (apply Exists_cons in H as [[_ H]|H]; [vm_compute in H; discriminate|]).
    by apply Exists_nil in H.
Defined.

Lemma groupRules_skip el grouped rules :
  groupRules el grouped rules 0 =
  groupRules el grouped (filter (λ rule, pseudoNames (selectorText rule) ≠ []) rules) 0.
Proof.
  revert grouped. induction rules as [|rule rules IH]; intros grouped; [done|].
  rewrite filter_cons. destruct (decide (pseudoNames (selectorText rule) ≠ [])) as [Hne|He].
  - cbn [groupRules]. pose proof (groupRule_rewinds el grouped rule 0) as H0.
    destruct (groupRule el grouped rule 0) as [[grouped'|] lastIndex']; simpl in H0; subst;
      [apply IH|done].
  - cbn [groupRules].
    destruct (groupRule_outcome el grouped rule) as [[_ ->]|[[[? _] _]|(? & _)]];
      [apply IH|done..].
Qed.

(** X8: a rule whose selector names no pseudo-element is passed over before
    [el.matches] is reached: the call behaves, throws included, as on the rule
    list without such rules. *)
Theorem rules_without_pseudo_are_passed_over el rules :
  getPseudoElementStyles el rules 0 =
  getPseudoElementStyles el
    (filter (λ rule, pseudoNames (selectorText rule) ≠ []) rules) 0.
Proof. unfold getPseudoElementStyles. by rewrite <- groupRules_skip. Qed.

(** * Further properties of the pseudo-element scan *)

Lemma substring_cons_S c s n : substring 0 (S n) (String c s) = String c (substring 0 n s).
Proof. reflexivity. Qed.

Lemma split_at i s : s = substring 0 i s +:+ RegExp.skip i s.
Proof.
  revert s. induction i as [|i IH]; intros [|c s]; try done.
  rewrite substring_cons_S. cbn [RegExp.skip].
  change (String c s = String c (substring 0 i s +:+ RegExp.skip i s)). by rewrite <- IH.
Qed.

Lemma matchHere_colons subject colons n :
  RegExp.matchHere subject = Some (colons, n) →
  (colons = 1 ∧ substring 0 (colons + n) subject
                = ":" +:+ substring 0 n (RegExp.skip colons subject))
  ∨ (colons = 2 ∧ substring 0 (colons + n) subject
                  = "::" +:+ substring 0 n (RegExp.skip colons subject)).
Proof.
  unfold RegExp.matchHere. intros H.
  destruct subject as [|c rest]; [done|].
  destruct (Ascii.eqb c ":") eqn:Hc; [|done]. apply Ascii.eqb_eq in Hc as ->.
  destruct rest as [|c' rest'].
  { apply fmap_Some in H as (? & _ & [= -> ->]). by left. }
  destruct (Ascii.eqb c' ":") eqn:Hc'.
  - apply Ascii.eqb_eq in Hc' as ->.
    destruct (RegExp.matchGroup rest').
    + injection H as <- <-. by right.
    + apply fmap_Some in H as (? & _ & [= -> ->]). by left.
  - apply fmap_Some in H as (? & _ & [= -> ->]). by left.
Qed.

(** The parts of an occurrence in the string it was found in. *)
Lemma exec_parts lastIndex str m lastIndex' :
  RegExp.exec lastIndex str = (Some m, lastIndex') →
  str = RegExp.slice str 0 (RegExp.index m) +:+ RegExp.whole m
        +:+ RegExp.sliceFrom str (RegExp.index m + String.length (RegExp.whole m))
  ∧ (RegExp.whole m = ":" +:+ RegExp.group1 m ∨ RegExp.whole m = "::" +:+ RegExp.group1 m).
Proof.
  unfold RegExp.exec. case_bool_decide; [done|].
  destruct (RegExp.search _ _) as [[[i colons] n]|] eqn:Hs; [|done].
  intros ?; simplify_eq. simpl.
  pose proof (search_bounds _ _ _ _ _ Hs) as (Hle & Hcolons & Hend).
  pose proof (search_matchHere _ _ _ _ _ Hs) as [_ Hm].
  rewrite skip_length in Hend. rewrite skip_skip in Hm.
  replace (lastIndex + (i - lastIndex)) with i in Hm by lia.
  unfold RegExp.slice, RegExp.sliceFrom. rewrite substring_length by lia.
  replace (i + colons + n - i) with (colons + n) by lia.
  replace (i + colons + n - (i + colons)) with n by lia.
  rewrite Nat.sub_0_r, (substring_skip i), (substring_skip (i + colons)).
  rewrite <- !skip_skip. split.
  - rewrite (skip_skip n colons), <- (split_at (colons + n)). apply split_at.
  - by destruct (matchHere_colons _ _ _ Hm) as [[_ ->]|[_ ->]]; [left|right].
Qed.

(** X9: an occurrence found in a selector is a piece of it: the text before
    the occurrence, the occurrence and the text after it make up the selector,
    so the selector without the occurrence lacks nothing else; and the
    occurrence is one colon or two followed by the captured name. *)
Theorem occurrence_is_cut_out_whole selectorText m :
  m ∈ execAll selectorText 0 →
  selectorText
  = RegExp.slice selectorText 0 (RegExp.index m) +:+ RegExp.whole m
    +:+ RegExp.sliceFrom selectorText (RegExp.index m + String.length (RegExp.whole m))
  ∧ withoutMatch selectorText m
    = RegExp.slice selectorText 0 (RegExp.index m)
      +:+ RegExp.sliceFrom selectorText (RegExp.index m + String.length (RegExp.whole m))
  ∧ (RegExp.whole m = ":" +:+ RegExp.group1 m ∨ RegExp.whole m = "::" +:+ RegExp.group1 m).
Proof.
  intros (from & to & Hexec)%execAll_exec.
  destruct (exec_parts _ _ _ _ Hexec) as [Hsplit Hwhole]. by split_and!.
Qed.

(** The occurrence in "a:first-line > b". *)
Lemma occurrence_sample :
  "a:first-line > b"
  = RegExp.slice "a:first-line > b" 0 1 +:+ ":first-line"
    +:+ RegExp.sliceFrom "a:first-line > b" (1 + String.length ":first-line")
  ∧ withoutMatch "a:first-line > b" (RegExp.mkResult 1 ":first-line" "first-line")
    = RegExp.slice "a:first-line > b" 0 1
      +:+ RegExp.sliceFrom "a:first-line > b" (1 + String.length ":first-line")
  ∧ (":first-line" = ":" +:+ "first-line" ∨ ":first-line" = "::" +:+ "first-line").
Proof.
  apply (occurrence_is_cut_out_whole "a:first-line > b"
           (RegExp.mkResult 1 ":first-line" "first-line")).
  vm_compute. by left.
Defined.

Lemma skip_beyond n s : String.length s ≤ n → RegExp.skip n s = "".
Proof.
  revert s. induction n as [|n IH]; intros [|c s]; simpl; try done; try lia.
  intros H. apply IH. lia.
Qed.

Lemma search_None subject index :
  RegExp.search subject index = None →
  ∀ k, RegExp.matchHere (RegExp.skip k subject) = None.
Proof.
  revert index. induction subject as [|c subject IH]; intros index.
  - intros _ k. by destruct k.
  - rewrite search_cons.
    destruct (RegExp.matchHere (String c subject)) as [[??]|] eqn:Hm; [done|].
    intros Hs [|k]; [done|]. apply (IH _ Hs).
Qed.

Lemma exec_None_nowhere lastIndex str lastIndex' :
  RegExp.exec lastIndex str = (None, lastIndex') →
  ∀ j, lastIndex ≤ j → RegExp.matchHere (RegExp.skip j str) = None.
Proof.
  unfold RegExp.exec. case_bool_decide as Hlen.
  - intros _ j Hj. rewrite skip_beyond by lia. done.
  - destruct (RegExp.search _ _) as [[[??]?]|] eqn:Hs; [done|]. intros _ j Hj.
    pose proof (search_None _ _ Hs (j - lastIndex)) as Hk.
    rewrite skip_skip in Hk. by replace (lastIndex + (j - lastIndex)) with j in Hk by lia.
Qed.

Lemma execAll_cover selectorText lastIndex :
  Forall (λ m, lastIndex ≤ RegExp.index m
               ∧ RegExp.index m < RegExp.index m + String.length (RegExp.whole m)
                 ≤ String.length selectorText
               ∧ is_Some (RegExp.matchHere (RegExp.skip (RegExp.index m) selectorText)))
    (execAll selectorText lastIndex)
  ∧ StronglySorted
      (λ m1 m2, RegExp.index m1 + String.length (RegExp.whole m1) ≤ RegExp.index m2)
      (execAll selectorText lastIndex)
  ∧ ∀ j, lastIndex ≤ j → is_Some (RegExp.matchHere (RegExp.skip j selectorText)) →
      ∃ m, m ∈ execAll selectorText lastIndex
           ∧ RegExp.index m ≤ j < RegExp.index m + String.length (RegExp.whole m).
Proof.
  remember (S (String.length selectorText) - lastIndex) as k eqn:Hk.
  revert lastIndex Hk. induction k as [k IH] using lt_wf_ind. intros lastIndex ->.
  rewrite execAll_step.
  destruct (RegExp.exec lastIndex selectorText) as [[m|] lastIndex'] eqn:Hexec.
  - pose proof (exec_progress _ _ _ _ Hexec) as Hprog.
    destruct (exec_span _ _ _ _ Hexec) as (Hle & Hend & _ & Hhere & Hleft).
    destruct (IH (S (String.length selectorText) - lastIndex') ltac:(lia) lastIndex' eq_refl)
      as (Hall & Hsorted & Hcover).
    pose proof (matchHere_length _ _ _ Hhere) as [Hcolon _].
    split_and!.
    + constructor.
      * split_and!; [done|lia|lia|by rewrite Hhere].
      * eapply Forall_impl; [exact Hall|]. intros m' (? & ? & ?). split; [lia|by split].
    + constructor; [done|]. eapply Forall_impl; [exact Hall|]. intros m' (? & _). lia.
    + intros j Hj Hsome. destruct (decide (j < RegExp.index m)) as [Hlt|Hge].
      * rewrite (Hleft j) in Hsome by lia. by destruct Hsome.
      * destruct (decide (j < lastIndex')) as [Hin|Hout].
        -- exists m. split; [by left|lia].
        -- destruct (Hcover j ltac:(lia) Hsome) as (m' & Hm' & Hj').
           exists m'. split; [by right|done].
  - split_and!; [constructor..|].
    intros j Hj Hsome. rewrite (exec_None_nowhere _ _ _ Hexec j Hj) in Hsome.
    by destruct Hsome.
Qed.

(** A string in which the pattern matches nowhere holds no occurrence. *)
Lemma search_nowhere subject index :
  (∀ k, RegExp.matchHere (RegExp.skip k subject) = None) →
  RegExp.search subject index = None.
Proof.
  revert index. induction subject as [|c subject IH]; intros index Hnone.
  - done.
  - pose proof (Hnone 0) as Hhere. cbn [RegExp.skip] in Hhere.
    rewrite search_cons, Hhere. apply IH. intros k. apply (Hnone (S k)).
Qed.

Lemma execAll_nowhere selectorText :
  (∀ k, RegExp.matchHere (RegExp.skip k selectorText) = None) →
  execAll selectorText 0 = [].
Proof.
  intros Hnone. rewrite execAll_step. unfold RegExp.exec.
  rewrite bool_decide_eq_false_2 by lia. cbn [RegExp.skip].
  replace (RegExp.skip 0 selectorText) with selectorText by (by destruct selectorText).
  by rewrite search_nowhere.
Qed.

Lemma append_length (s t : string) :
  String.length (s +:+ t) = String.length s + String.length t.
Proof.
  induction s as [|c s IH]; [done|].
  change (S (String.length (s +:+ t)) = S (String.length s + String.length t)).
  by rewrite IH.
Qed.

Lemma append_inj_r (s t1 t2 : string) : s +:+ t1 = s +:+ t2 → t1 = t2.
Proof.
  induction s as [|c s IH]; [done|].
  change (String c (s +:+ t1) = String c (s +:+ t2) → t1 = t2).
  intros [= H]. by apply IH.
Qed.

(** A string is cut at a given place in one way only. *)
Lemma split_unique (s1 s2 t1 t2 : string) :
  s1 +:+ t1 = s2 +:+ t2 → String.length s1 = String.length s2 → s1 = s2 ∧ t1 = t2.
Proof.
  revert s2. induction s1 as [|c s1 IH]; intros [|c2 s2]; try done.
  change (String c (s1 +:+ t1) = String c2 (s2 +:+ t2) →
          S (String.length s1) = S (String.length s2) →
          String c s1 = String c2 s2 ∧ t1 = t2).
  intros [= -> Heq] [= Hlen]. destruct (IH _ Heq Hlen) as [-> ->]. done.
Qed.

(** A piece that lies within the first part of a string is a piece of that
    part. *)
Lemma substring_append_l i n (s t : string) :
  i + n ≤ String.length s → substring i n (s +:+ t) = substring i n s.
Proof.
  revert i n. induction s as [|c s IH]; intros i n Hle.
  - simpl in Hle. assert (i = 0) as -> by lia. assert (n = 0) as -> by lia.
    change ("" +:+ t) with t. by destruct t.
  - change (String c s +:+ t) with (String c (s +:+ t)).
    destruct i as [|i]; [destruct n as [|n]; [done|]|]; simpl in *.
    + f_equal. apply (IH 0 n). lia.
    + apply IH. lia.
Qed.

(** C5: when the scan of the selector of a rule ends on the occurrence [m],
    other occurrences coming earlier, the selector is a text [before], the
    occurrence (one colon or two and a pseudo-element name, in any letter
    case) and a text [after] in which the pattern is not found again;
    [el.matches] is asked about [before] followed by [after], or about "*"
    when that is empty; the earlier occurrences lie in [before] and so are
    found unchanged, where they were, in the selector asked about.  When the
    element matches, the block of the rule is appended to the group of every
    name that occurs, once for each name, and other groups are untouched; when
    it does not match, no group changes. *)
Theorem base_selector_drops_last_occurrence el grouped rule earlier m :
  execAll (selectorText rule) 0 = earlier ++ [m] →
  ∃ before after,
    selectorText rule = before +:+ RegExp.whole m +:+ after
    ∧ String.length before = RegExp.index m
    ∧ (RegExp.whole m = ":" +:+ RegExp.group1 m ∨ RegExp.whole m = "::" +:+ RegExp.group1 m)
    ∧ (∃ alt, alt ∈ RegExp.alternatives ∧ upper (RegExp.group1 m) = upper alt)
    ∧ execAll after 0 = []
    ∧ Forall (λ m',
        RegExp.index m' + String.length (RegExp.whole m') ≤ String.length before
        ∧ substring (RegExp.index m') (String.length (RegExp.whole m')) (before +:+ after)
          = RegExp.whole m') earlier
    ∧ match el_matches el
              (if bool_decide (before +:+ after = "") then "*" else before +:+ after) with
      | Normal true =>
          ∃ grouped',
            groupRule el grouped rule 0 = (Normal grouped', 0)
            ∧ ∀ name, grouped' !! name =
                if decide (name ∈ (λ m', "::" +:+ RegExp.group1 m') <$> earlier ++ [m])
                then Some (default [] (grouped !! name) ++ [style rule])
                else grouped !! name
      | Normal false => groupRule el grouped rule 0 = (Normal grouped, 0)
      | Throw => groupRule el grouped rule 0 = (Throw, 0)
      end.
Proof.
  intros Hocc.
  destruct (execAll_cover (selectorText rule) 0) as (Hall & Hsorted & Hcover).
  assert (m ∈ execAll (selectorText rule) 0) as Hm
    by (rewrite Hocc, elem_of_app; right; by left).
  destruct (execAll_exec _ _ _ Hm) as (from & to & Hexec).
  destruct (exec_parts _ _ _ _ Hexec) as [Hsplit Hcolons].
  destruct (exec_group _ _ _ _ Hexec) as (alt & start & Halt & _ & _ & Hupper).
  rewrite Forall_forall in Hall. destruct (Hall m Hm) as (_ & Hbounds & _).
  assert (String.length (RegExp.slice (selectorText rule) 0 (RegExp.index m))
          = RegExp.index m) as Hbefore.
  { unfold RegExp.slice. rewrite Nat.sub_0_r. apply substring_length. lia. }
  exists (RegExp.slice (selectorText rule) 0 (RegExp.index m)),
         (RegExp.sliceFrom (selectorText rule)
            (RegExp.index m + String.length (RegExp.whole m))).
  split_and!.
  - exact Hsplit.
  - exact Hbefore.
  - exact Hcolons.
  - eauto.
  - apply execAll_nowhere. intros k. unfold RegExp.sliceFrom. rewrite skip_skip.
    destruct (RegExp.matchHere _) as [found|] eqn:Hhere; [|done]. exfalso.
    destruct (Hcover (RegExp.index m + String.length (RegExp.whole m) + k)) as (m' & Hm' & Hk);
      [lia|by rewrite Hhere|].
    rewrite Hocc in Hm', Hsorted.
    apply elem_of_app in Hm' as [Hm'|Hm'].
    + pose proof (StronglySorted_app_1_elem_of _ _ _ _ _ Hsorted Hm'
                    (proj2 (list_elem_of_singleton m m) eq_refl)).
      simpl in *. lia.
    + apply list_elem_of_singleton in Hm' as ->. lia.
  - rewrite Forall_forall. intros m' Hm'.
    assert (m' ∈ execAll (selectorText rule) 0) as Hin
      by (rewrite Hocc, elem_of_app; by left).
    rewrite Hocc in Hsorted.
    pose proof (StronglySorted_app_1_elem_of _ _ _ _ _ Hsorted Hm'
                  (proj2 (list_elem_of_singleton m m) eq_refl)) as Hends.
    simpl in Hends. rewrite Hbefore. split; [done|].
    destruct (execAll_exec _ _ _ Hin) as (from' & to' & Hexec').
    destruct (exec_span _ _ _ _ Hexec') as (_ & Hto & Hwhole & _).
    rewrite substring_append_l by (rewrite Hbefore; lia).
    rewrite <- (substring_append_l _ _ _
                  (RegExp.whole m +:+ RegExp.sliceFrom (selectorText rule)
                     (RegExp.index m + String.length (RegExp.whole m))))
      by (rewrite Hbefore; lia).
    rewrite <- Hsplit. rewrite Hwhole at 2. unfold RegExp.slice. f_equal. lia.
  - rewrite groupRule_eq. cbn zeta. rewrite Hocc, last_snoc. cbn [from_option].
    pose proof (seeName_fold (pseudoName <$> earlier ++ [m])) as Hseen.
    destruct (foldl seeName None _) as [seen|].
    + destruct Hseen as (_ & Hnd & Hmem). unfold orStar, withoutMatch.
      destruct (el_matches el _) as [[|]|]; [|done..].
      eexists. split; [done|]. intros name. rewrite pushStyle_fold by done.
      destruct (decide (name ∈ seen)) as [Hin|Hin].
      * rewrite decide_True; [done|]. by apply Hmem.
      * rewrite decide_False; [done|]. intros Hname. by apply Hin, Hmem.
    + apply fmap_nil_inv in Hseen. by destruct earlier.
Qed.

(** The rule for "a::before, b:AFTER": the scan ends on ":AFTER", found at
    12, after "::before", found at 1; what goes before is "a::before, b" and
    nothing comes after, so an element that matches "a::before, b" gets the
    block under both names. *)
Lemma base_selector_sample :
  execAll "a::before, b:AFTER" 0
  = [RegExp.mkResult 1 "::before" "before"] ++ [RegExp.mkResult 12 ":AFTER" "AFTER"]
  ∧ ∃ before after,
      before = "a::before, b" ∧ after = ""
      ∧ "a::before, b:AFTER" = before +:+ ":AFTER" +:+ after
      ∧ String.length before = 12
      ∧ (":AFTER" = ":" +:+ "AFTER" ∨ ":AFTER" = "::" +:+ "AFTER")
      ∧ (∃ alt, alt ∈ RegExp.alternatives ∧ upper "AFTER" = upper alt)
      ∧ execAll after 0 = []
      ∧ Forall (λ m',
          RegExp.index m' + String.length (RegExp.whole m') ≤ String.length before
          ∧ substring (RegExp.index m') (String.length (RegExp.whole m'))
              (before +:+ after)
            = RegExp.whole m') [RegExp.mkResult 1 "::before" "before"]
      ∧ match el_matches (elementMatching [] ["a::before, b"])
                (if bool_decide (before +:+ after = "") then "*" else before +:+ after) with
        | Normal true =>
            ∃ grouped',
              groupRule (elementMatching [] ["a::before, b"]) ∅
                (styleRule "a::before, b:AFTER" [decl "content" "x"]) 0
              = (Normal grouped', 0)
              ∧ ∀ name, grouped' !! name =
                  if decide (name ∈ (λ m', "::" +:+ RegExp.group1 m')
                               <$> [RegExp.mkResult 1 "::before" "before"]
                                   ++ [RegExp.mkResult 12 ":AFTER" "AFTER"])
                  then Some (default []
                               ((∅ : gmap string (list CSSStyleDeclaration)) !! name)
                             ++ [[decl "content" "x"]])
                  else (∅ : gmap string (list CSSStyleDeclaration)) !! name
        | Normal false =>
            groupRule (elementMatching [] ["a::before, b"]) ∅
              (styleRule "a::before, b:AFTER" [decl "content" "x"]) 0
            = (Normal ∅, 0)
        | Throw =>
            groupRule (elementMatching [] ["a::before, b"]) ∅
              (styleRule "a::before, b:AFTER" [decl "content" "x"]) 0
            = (Throw, 0)
        end.
Proof.
  assert (execAll "a::before, b:AFTER" 0
          = [RegExp.mkResult 1 "::before" "before"]
            ++ [RegExp.mkResult 12 ":AFTER" "AFTER"]) as Hocc by (by vm_compute).
  split; [exact Hocc|].
  destruct (base_selector_drops_last_occurrence (elementMatching [] ["a::before, b"]) ∅
              (styleRule "a::before, b:AFTER" [decl "content" "x"])
              [RegExp.mkResult 1 "::before" "before"]
              (RegExp.mkResult 12 ":AFTER" "AFTER") Hocc)
    as (before & after & Hsplit & Hlen & Hrest).
  exists before, after.
  destruct (split_unique before "a::before, b" (":AFTER" +:+ after) (":AFTER" +:+ "")
              (eq_sym Hsplit) Hlen) as [Hbefore Hafter].
  apply append_inj_r in Hafter.
  split; [exact Hbefore|]. split; [exact Hafter|]. split; [exact Hsplit|].
  split; [exact Hlen|]. exact Hrest.
Defined.

(** X10: the occurrences the loop goes through are the tokens of the
    selector read from left to right: each one starts where the pattern
    matches, is not empty and ends inside the selector, each starts at or after
    the end of the one before, and every place of the selector where the
    pattern matches lies inside one of them, so no token is passed by. *)
Theorem occurrences_are_the_tokens_in_order selectorText :
  Forall (λ m, RegExp.index m < RegExp.index m + String.length (RegExp.whole m)
                 ≤ String.length selectorText
               ∧ is_Some (RegExp.matchHere (RegExp.skip (RegExp.index m) selectorText)))
    (execAll selectorText 0)
  ∧ StronglySorted
      (λ m1 m2, RegExp.index m1 + String.length (RegExp.whole m1) ≤ RegExp.index m2)
      (execAll selectorText 0)
  ∧ ∀ j, is_Some (RegExp.matchHere (RegExp.skip j selectorText)) →
      ∃ m, m ∈ execAll selectorText 0
           ∧ RegExp.index m ≤ j < RegExp.index m + String.length (RegExp.whole m).
Proof.
  destruct (execAll_cover selectorText 0) as (Hall & Hsorted & Hcover). split_and!.
  - eapply Forall_impl; [exact Hall|]. by intros m (_ & ? & ?).
  - done.
  - intros j. apply Hcover. lia.
Qed.

(** In "::before" the pattern matches at 0 and, with one colon, at 1; the
    one occurrence covers both places. *)
Lemma token_cover_sample :
  ∃ m, m ∈ execAll "::before" 0
       ∧ RegExp.index m ≤ 1 < RegExp.index m + String.length (RegExp.whole m).
Proof.
  destruct (occurrences_are_the_tokens_in_order "::before") as (_ & _ & Hcover).
  apply (Hcover 1). vm_compute. eauto.
Defined.

Lemma search_no_colon subject index :
  ":"%char ∉ list_ascii_of_string subject → RegExp.search subject index = None.
Proof.
  revert index. induction subject as [|c subject IH]; intros index Hno; [done|].
  rewrite search_cons. simpl in Hno. apply not_elem_of_cons in Hno as [Hc Hno].
  unfold RegExp.matchHere. rewrite (proj2 (Ascii.eqb_neq c ":")) by congruence.
  by apply IH.
Qed.

(** X11: a selector without a colon names no pseudo-element, and a rule list
    of such selectors gives null without [el.matches] being called, whatever
    the element. *)
Theorem selectors_without_colon_give_null el rules :
  Forall (λ rule, ":"%char ∉ list_ascii_of_string (selectorText rule)) rules →
  Forall (λ rule, pseudoNames (selectorText rule) = []) rules
  ∧ getPseudoElementStyles el rules 0 = (Normal None, 0).
Proof.
  intros Hno.
  assert (Forall (λ rule, pseudoNames (selectorText rule) = []) rules) as Hnil.
  { eapply Forall_impl; [exact Hno|]. intros rule Hrule.
    unfold pseudoNames. rewrite execAll_step. unfold RegExp.exec.
    rewrite bool_decide_eq_false_2 by (simpl; lia).
    by rewrite (search_no_colon _ _ Hrule). }
  split; [done|]. unfold getPseudoElementStyles.
  assert (groupRules el ∅ rules 0 = (Normal ∅, 0)) as ->; [|done].
  generalize (∅ : gmap string (list CSSStyleDeclaration)).
  induction Hnil as [|rule rules Hrule _ IH]; intros grouped; [done|].
  cbn [groupRules].
  destruct (groupRule_outcome el grouped rule) as [[_ ->]|[[[? _] _]|(? & _)]]; [|done..].
  apply IH. by apply Forall_cons in Hno as [_ ?].
Qed.

(** Type, class and attribute selectors, and an element whose [matches]
    would throw. *)
Lemma no_colon_sample :
  Forall (λ rule, pseudoNames (selectorText rule) = [])
    [styleRule "div > p" [decl "color" "red"]; styleRule ".x[lang]" [decl "margin" "0"]]
  ∧ getPseudoElementStyles (mkElement [] (λ _, Throw))
      [styleRule "div > p" [decl "color" "red"]; styleRule ".x[lang]" [decl "margin" "0"]] 0
    = (Normal None, 0).
Proof.
  apply selectors_without_colon_give_null.
  repeat constructor; vm_compute; intros H;
    repeat (apply elem_of_cons in H as [H|H]; [discriminate|]);
    by apply elem_of_nil in H.
Defined.

(** * Further properties of rule collection and ordering *)

Lemma getStyleRulesFromSheet_elem window sheet r :
  r ∈ getStyleRulesFromSheet sheet window ↔
  ∃ top, top ∈ sheet ∧ r ∈ getStyleRulesFromRule window top.
Proof.
  induction sheet as [|rule sheet IH]; simpl.
  - split; [by intros ?%elem_of_nil|]. by intros (? & ?%elem_of_nil & _).
  - rewrite elem_of_app, IH. split.
    + intros [(top & ? & ?)|?]; [exists top|exists rule]; split; try done;
        by (left || right).
    + intros (top & [->|?]%elem_of_cons & ?); [by right|left; eauto].
Qed.

(** X12: the rules collected from a sheet are exactly the style rules in
    force in it: the style rules at the top of the sheet and those reached
    through media and supports groups whose conditions all hold, at any
    depth. *)
Theorem collected_iff_in_force window sheet r :
  r ∈ getStyleRulesFromSheet sheet window ↔ ∃ top, top ∈ sheet ∧ inForce window top r.
Proof.
  assert (∀ rule, r ∈ getStyleRulesFromRule window rule ↔ inForce window rule r) as Hrule.
  { intros rule. split.
    - revert r.
      induction rule as [t selector block media condition nested IH]
        using CSSRule_nested_ind.
      intros r. rewrite getStyleRulesFromRule_gate.
      destruct (isStyleRule _) eqn:Hs.
      + intros ->%list_elem_of_singleton. by constructor.
      + destruct (conditionHolds _ _) eqn:Hc; [|by intros ?%elem_of_nil]. simpl.
        intros (child & Hin & Hr)%getStyleRulesFromSheet_elem.
        rewrite Forall_forall in IH.
        eapply inForce_group; [done..|by apply IH].
    - induction 1 as [rule Hs|group child rule Hs Hc Hin _ IH];
        rewrite getStyleRulesFromRule_gate.
      + rewrite Hs. by apply list_elem_of_singleton.
      + rewrite Hs, Hc. apply getStyleRulesFromSheet_elem. eauto. }
  rewrite getStyleRulesFromSheet_elem. by setoid_rewrite Hrule.
Qed.

(** The rule for .wide of the sample document sits in a screen group. *)
Lemma in_force_sample :
  styleRule ".wide" [decl "width" "100%"]
  ∈ getStyleRulesFromSheet
      [mediaRule "screen" [styleRule "a" [decl "color" "blue"];
                           styleRule ".wide" [decl "width" "100%"]]] sampleWindow.
Proof.
  apply collected_iff_in_force. eexists. split; [by left|].
  eapply inForce_group; [done|done| |by constructor]. right. by left.
Defined.

Lemma getStyleRulesFromSheet_style window sheet :
  Forall (λ r, isStyleRule r = true) (getStyleRulesFromSheet sheet window).
Proof.
  induction sheet as [|rule sheet IH]; simpl; [constructor|].
  apply Forall_app. split; [done|]. apply getStyleRulesFromRule_style.
Qed.

(** X13: whatever the comparator answers, consistent or not, the rule list
    of a document holds the rules collected from its sheets, each as many
    times as it was collected, and nothing but style rules. *)
Theorem ordering_only_rearranges compare document :
  getDocumentStyleRules compare document ≡ₚ collectedRules document
  ∧ length (getDocumentStyleRules compare document) = length (collectedRules document)
  ∧ Forall (λ r, isStyleRule r = true) (getDocumentStyleRules compare document).
Proof.
  assert (getDocumentStyleRules compare document ≡ₚ collectedRules document) as Hperm
    by apply sort_perm.
  split_and!; [done|by rewrite Hperm|]. rewrite Hperm, collectedRules_concat.
  apply Forall_concat, Forall_fmap, Forall_forall. intros sheet _.
  apply getStyleRulesFromSheet_style.
Qed.

(** * The cascade from end to end *)



Section Cascade.
Context (compare : string → string → Z).
Hypothesis compare_flip : ∀ a b, (compare a b ≤ 0 ↔ 0 ≤ compare b a)%Z.
Hypothesis compare_trans :
  ∀ a b c, (compare a b ≤ 0 → compare b c ≤ 0 → compare a c ≤ 0)%Z.



End Cascade.


Lemma sort_all_ties {T} (comparefn : T → T → Z) (l : list T) :
  (∀ a b, a ∈ l → b ∈ l → (comparefn a b ≤ 0)%Z) → sort comparefn l = l.
Proof.
  induction l as [|x l IH]; intros Hties; [done|]. simpl. rewrite IH.
  - destruct l as [|y l]; [done|]. simpl.
    rewrite (proj2 (Z.leb_le _ _)); [done|]. apply Hties; [by left|right; by left].
  - intros a b Ha Hb. apply Hties; by right.
Qed.

(** X15: when the selectors of all collected rules compare equal, the rule
    list of the document is the order of collection itself: the sheets in
    document order, and within a sheet the rule declared last first. *)
Theorem equal_specificity_keeps_collection_order compare document :
  (∀ a b, a ∈ collectedRules document → b ∈ collectedRules document →
          compare (selectorText a) (selectorText b) = 0%Z) →
  getDocumentStyleRules compare document
  = concat ((λ sheet, rev (declarationOrder sheet (defaultView document)))
              <$> styleSheets document).
Proof.
  intros Hties. unfold getDocumentStyleRules. rewrite sort_all_ties.
  - rewrite collectedRules_concat. f_equal. apply list_fmap_ext.
    intros _ sheet _. apply getStyleRulesFromSheet_rev.
  - intros a b Ha Hb. unfold bySpecificity. by rewrite Hties.
Qed.

(** In the tied sample b stands before a, and the first sheet before the
    second. *)
Lemma tied_sample :
  selectorText <$> getDocumentStyleRules byLength tiedDocument = ["b"; "a"; "p"].
Proof.
  rewrite equal_specificity_keeps_collection_order; [by vm_compute|].
  assert (Forall (λ r, String.length (selectorText r) = 1) (collectedRules tiedDocument))
    as Hone by (vm_compute; repeat constructor).
  rewrite Forall_forall in Hone. intros a b Ha Hb. unfold byLength.
  rewrite (Hone a Ha), (Hone b Hb). done.
Defined.

Lemma find_swap {A} (f : A → bool) (x a b y : list A) :
  List.find f a = None ∨ List.find f b = None →
  List.find f (x ++ a ++ b ++ y) = List.find f (x ++ b ++ a ++ y).
Proof.
  rewrite !find_app_or.
  by intros [->| ->]; destruct (List.find f x).
Qed.

(** X16: two neighbouring blocks that declare no property in common can
    change places without changing the resolved map. *)
Theorem disjoint_blocks_commute before a b after :
  (∀ name, declares name a = false ∨ declares name b = false) →
  getAppliedPropertiesForStyles (before ++ a :: b :: after)
  = getAppliedPropertiesForStyles (before ++ b :: a :: after).
Proof.
  intros Hdisjoint.
  assert (∀ u v, entries (before ++ u :: v :: after)
                 = entries before ++ entriesOf u ++ entriesOf v ++ entries after) as Hsplit.
  { intros u v. rewrite entries_app.
    by change (entries (u :: v :: after))
      with (entriesOf u ++ entriesOf v ++ entries after). }
  apply resolved_ext.
  - rewrite !resolver_null_entries, !Hsplit, !app_nil. tauto.
  - intros name. rewrite !resolved_is_winner, !Hsplit. unfold winner.
    rewrite (find_swap (λ e, named name e && Resolver.e_important e)).
    + rewrite (find_swap (named name)); [done|].
      rewrite !find_named_entriesOf. by destruct (Hdisjoint name) as [-> | ->]; [left|right].
    + rewrite !find_important_entriesOf. unfold declaresImportant.
      by destruct (Hdisjoint name) as [-> | ->]; [left|right].
Qed.

(** A block for color and a block for margin, between two others. *)
Lemma disjoint_sample :
  getAppliedPropertiesForStyles
    ([[decl "width" "1px"]] ++ [decl_important "color" "red"] :: [decl "margin" "0"]
     :: [[decl "color" "blue"; decl_important "margin" "1px"]])
  = getAppliedPropertiesForStyles
      ([[decl "width" "1px"]] ++ [decl "margin" "0"] :: [decl_important "color" "red"]
       :: [[decl "color" "blue"; decl_important "margin" "1px"]]).
Proof.
  apply disjoint_blocks_commute. intros name.
  destruct (decide (name = "color")) as [->|Hne]; [by right|]. left.
  unfold declares. apply bool_decide_eq_false. by intros ->%list_elem_of_singleton.
Defined.

Lemma orStar_not_empty baseSelector : orStar baseSelector ≠ "".
Proof. unfold orStar. by case_bool_decide. Qed.

Lemma groupRule_agree el1 el2 grouped rule lastIndex :
  (∀ selector, selector ≠ "" → el_matches el1 selector = el_matches el2 selector) →
  groupRule el1 grouped rule lastIndex = groupRule el2 grouped rule lastIndex.
Proof.
  intros Hagree. rewrite !groupRule_eq. cbn zeta.
  destruct (foldl seeName None _); [|done].
  by rewrite (Hagree _ (orStar_not_empty _)).
Qed.

(** X17: [el.matches] is never asked about the empty selector: two elements
    that answer alike on every selector but the empty one get the same
    pseudo-element styles from every rule list. *)
Theorem never_asks_about_empty_selector el1 el2 rules lastIndex :
  (∀ selector, selector ≠ "" → el_matches el1 selector = el_matches el2 selector) →
  getPseudoElementStyles el1 rules lastIndex = getPseudoElementStyles el2 rules lastIndex.
Proof.
  intros Hagree. unfold getPseudoElementStyles.
  assert (∀ grouped, groupRules el1 grouped rules lastIndex
                     = groupRules el2 grouped rules lastIndex) as ->; [|done].
  revert lastIndex. induction rules as [|rule rules IH]; intros lastIndex grouped; [done|].
  cbn [groupRules]. rewrite (groupRule_agree el1 el2) by done.
  destruct (groupRule el2 grouped rule lastIndex) as [[grouped'|] lastIndex']; [|done].
  apply IH.
Qed.

(** An element that throws on the empty selector, with a rule whose selector
    is a pseudo-element alone. *)
Lemma empty_selector_sample :
  getPseudoElementStyles
    (mkElement [] (λ selector, if bool_decide (selector = "") then Throw else Normal true))
    [styleRule "::before" [decl "content" "x"]] 0
  = getPseudoElementStyles (mkElement [] (λ _, Normal true))
      [styleRule "::before" [decl "content" "x"]] 0.
Proof.
  apply never_asks_about_empty_selector. intros selector Hne. simpl.
  by rewrite bool_decide_eq_false_2.
Defined.

(** * Letter case in the scan *)

Lemma canonicalize_colon c : Ascii.eqb (RegExp.canonicalize c) ":" = Ascii.eqb c ":".
Proof. destruct c as [[] [] [] [] [] [] [] []]; reflexivity. Qed.

Lemma upper_cons_inv c1 s1 c2 s2 :
  upper (String c1 s1) = upper (String c2 s2) →
  RegExp.canonicalize c1 = RegExp.canonicalize c2 ∧ upper s1 = upper s2.
Proof. simpl. by intros [= ? ?]. Qed.

Lemma upper_length s : String.length (upper s) = String.length s.
Proof. induction s as [|c s IH]; simpl; [done|]. by rewrite IH. Qed.

Lemma upper_skip n s : upper (RegExp.skip n s) = RegExp.skip n (upper s).
Proof. revert s. induction n as [|n IH]; intros [|c s]; simpl; auto. Qed.

Lemma upper_substring i n s : upper (substring i n s) = substring i n (upper s).
Proof.
  revert i n. induction s as [|c s IH]; intros [|i] [|n]; simpl; try done.
  by rewrite IH.
Qed.

Lemma upper_append s t : upper (s +:+ t) = upper s +:+ upper t.
Proof.
  induction s as [|c s IH]; [done|].
  change (String (RegExp.canonicalize c) (upper (s +:+ t))
          = String (RegExp.canonicalize c) (upper s +:+ upper t)).
  by rewrite IH.
Qed.

Lemma startsWith_alike literal s1 s2 :
  upper s1 = upper s2 → RegExp.startsWith literal s1 = RegExp.startsWith literal s2.
Proof.
  revert s1 s2. induction literal as [|a literal IH]; intros [|b1 s1] [|b2 s2] Hup;
    simpl; try done.
  apply upper_cons_inv in Hup as [-> Hup]. by rewrite (IH _ _ Hup).
Qed.

Lemma matchGroup_alike s1 s2 :
  upper s1 = upper s2 → RegExp.matchGroup s1 = RegExp.matchGroup s2.
Proof.
  intros Hup. unfold RegExp.matchGroup. f_equal. apply find_ext.
  intros alt. by apply startsWith_alike.
Qed.

Lemma matchHere_alike s1 s2 :
  upper s1 = upper s2 → RegExp.matchHere s1 = RegExp.matchHere s2.
Proof.
  intros Hup. destruct s1 as [|c1 r1], s2 as [|c2 r2]; try done.
  apply upper_cons_inv in Hup as [Hc Hr]. unfold RegExp.matchHere.
  rewrite <- (canonicalize_colon c1), <- (canonicalize_colon c2), Hc.
  destruct (Ascii.eqb _ ":"); [|done].
  rewrite (matchGroup_alike r1 r2 Hr).
  destruct r1 as [|d1 t1], r2 as [|d2 t2]; try done.
  apply upper_cons_inv in Hr as [Hd Ht].
  rewrite <- (canonicalize_colon d1), <- (canonicalize_colon d2), Hd.
  by rewrite (matchGroup_alike t1 t2 Ht).
Qed.

Lemma search_alike s1 s2 index :
  upper s1 = upper s2 → RegExp.search s1 index = RegExp.search s2 index.
Proof.
  revert s2 index. induction s1 as [|c1 s1 IH]; intros [|c2 s2] index Hup; try done.
  rewrite !search_cons, (matchHere_alike _ _ Hup).
  apply upper_cons_inv in Hup as [_ Hup]. by rewrite (IH _ _ Hup).
Qed.

Lemma exec_alike s1 s2 lastIndex :
  upper s1 = upper s2 →
  (RegExp.exec lastIndex s1).2 = (RegExp.exec lastIndex s2).2
  ∧ match (RegExp.exec lastIndex s1).1, (RegExp.exec lastIndex s2).1 with
    | Some m1, Some m2 => alike m1 m2
    | None, None => True
    | _, _ => False
    end.
Proof.
  intros Hup. unfold RegExp.exec.
  rewrite <- (upper_length s1), <- (upper_length s2), Hup.
  case_bool_decide; [done|].
  rewrite (search_alike (RegExp.skip lastIndex s1) (RegExp.skip lastIndex s2))
    by (by rewrite !upper_skip, Hup).
  destruct (RegExp.search _ _) as [[[i colons] n]|]; [|done]. simpl.
  split; [done|]. unfold alike, RegExp.slice. simpl.
  by rewrite !upper_substring, Hup.
Qed.

Lemma execAll_alike s1 s2 lastIndex :
  upper s1 = upper s2 → Forall2 alike (execAll s1 lastIndex) (execAll s2 lastIndex).
Proof.
  intros Hup. remember (S (String.length s1) - lastIndex) as k eqn:Hk.
  revert lastIndex Hk. induction k as [k IH] using lt_wf_ind. intros lastIndex ->.
  rewrite (execAll_step s1), (execAll_step s2).
  destruct (exec_alike s1 s2 lastIndex Hup) as [Hnext Hm].
  destruct (RegExp.exec lastIndex s1) as [[m1|] next1] eqn:H1,
           (RegExp.exec lastIndex s2) as [[m2|] next2]; simpl in *; try done.
  subst next2. pose proof (exec_progress _ _ _ _ H1).
  constructor; [done|]. eapply (IH (S (String.length s1) - next1)); [lia|done].
Qed.

(** X18: the scan sets letter case aside.  Two selectors that read the same
    once upper-cased have their occurrences at the same places, name the same
    pseudo-elements up to letter case, and leave stripped selectors that read
    the same once upper-cased. *)
Theorem scan_sets_letter_case_aside s1 s2 :
  upper s1 = upper s2 →
  Forall2 alike (execAll s1 0) (execAll s2 0)
  ∧ upper <$> pseudoNames s1 = upper <$> pseudoNames s2
  ∧ upper (strippedSelector s1) = upper (strippedSelector s2).
Proof.
  intros Hup. pose proof (execAll_alike s1 s2 0 Hup) as Hall. split_and!; [done| |].
  - unfold pseudoNames. induction Hall as [|m1 m2 l1 l2 (_ & _ & Hg) _ IH]; [done|].
    rewrite !fmap_cons, IH. f_equal. unfold pseudoName.
    by rewrite !upper_append, Hg.
  - assert (upper (from_option (withoutMatch s1) s1 (last (execAll s1 0)))
            = upper (from_option (withoutMatch s2) s2 (last (execAll s2 0)))) as Hbase.
    { induction Hall as [|m1 m2 l1 l2 (Hi & Hw & _) Hrest IH]; [done|].
      destruct Hrest as [|m1' m2' l1' l2' _ _]; [|by rewrite !last_cons_cons].
      simpl. unfold withoutMatch, RegExp.slice, RegExp.sliceFrom.
      rewrite !upper_append, !upper_substring, !upper_skip, Hup, Hi.
      by rewrite <- (upper_length (RegExp.whole m1)), Hw, upper_length. }
    unfold strippedSelector. cbn zeta.
    destruct (from_option (withoutMatch s1) s1 _) as [|c1 b1],
             (from_option (withoutMatch s2) s2 _) as [|c2 b2]; try done.
Qed.

(** The same selector in two spellings. *)
Lemma letter_case_scan_sample :
  Forall2 alike (execAll "DIV::Before" 0) (execAll "div::before" 0)
  ∧ upper <$> pseudoNames "DIV::Before" = upper <$> pseudoNames "div::before"
  ∧ upper (strippedSelector "DIV::Before") = upper (strippedSelector "div::before").
Proof. apply scan_sets_letter_case_aside. reflexivity. Defined.

(** * A window without [matchMedia] *)

Lemma conditionHolds_without_matchMedia window rule :
  matchMedia window = None →
  conditionHolds window rule
  = conditionHolds (mkWindow (Some (λ _, false)) (CSS_supports window)) rule.
Proof.
  intros Hnone. unfold conditionHolds. rewrite Hnone. simpl.
  by rewrite !andb_false_r.
Qed.

(** X19: a window that has no [matchMedia] collects what a window collects
    in which no media query matches: every media group is dropped with all it
    nests, at any depth, and supports groups are judged as before. *)
Theorem missing_matchMedia_drops_media_groups window sheet :
  matchMedia window = None →
  getStyleRulesFromSheet sheet window
  = getStyleRulesFromSheet sheet (mkWindow (Some (λ _, false)) (CSS_supports window)).
Proof.
  intros Hnone.
  assert (∀ rule, getStyleRulesFromRule window rule
                  = getStyleRulesFromRule
                      (mkWindow (Some (λ _, false)) (CSS_supports window)) rule) as Hrule.
  { induction rule as [t selector block media condition nested IH]
      using CSSRule_nested_ind.
    rewrite !getStyleRulesFromRule_gate, <- conditionHolds_without_matchMedia by done.
    destruct (isStyleRule _); [done|]. destruct (conditionHolds _ _); [|done]. simpl.
    induction IH as [|r nested Hr _ IHnested]; simpl; [done|]. by rewrite IHnested, Hr. }
  induction sheet as [|rule sheet IH]; simpl; [done|]. by rewrite IH, Hrule.
Qed.

(** The first sheet of the sample document in a window without
    [matchMedia]: the screen group goes too. *)
Lemma missing_matchMedia_sample :
  selectorText <$>
    getStyleRulesFromSheet
      [styleRule "p" [decl "color" "red"];
       mediaRule "screen" [styleRule "a" [decl "color" "blue"]];
       supportsRule "(display: grid)" [styleRule "ul" [decl "display" "grid"]]]
      (mkWindow None (CSS_supports sampleWindow))
  = ["ul"; "p"].
Proof. rewrite missing_matchMedia_drops_media_groups; [by vm_compute|done]. Defined.
